(** * PetIBM: the fractional-step engine of [NavierStokesSolver]

    A shallow embedding of [src/solvers/navierStokes/NavierStokesSolver.cpp]
    (and of the class declared in [NavierStokesSolver.h]): the step counter
    predicates [savePoint] and [finished], the non-zero counting helper
    [countNumNonZeros], the right-hand-side assemblies [generateRHS1] and
    [generateRHS2], the two linear solves, [projectionStep] and [stepTime];
    then [finalize], [generateQTBNQ], and from [src/mesh/mesh.cpp] the
    teardown of [MeshBase] ([destroy] and the destructor).

    PETSc is an external library.  Its vectors are modelled as lists of
    scalars, its matrices as lists of rows, and its Krylov solver as an
    abstract interface; every PETSc call returns an error code that the
    source checks with [CHKERRQ].

    Signed overflow and division by zero, which C++ leaves undefined, are
    faults of their own in the model; [exit] is an outcome of its own. *)

From Stdlib Require Import ZArith List Bool String Ascii Lia.
From Stdlib Require Import DecimalString Permutation Ring InitialRing.
Import ListNotations.

Local Open Scope Z_scope.

(* ================================================================== *)
(** * Machine integers *)

(** [PetscInt] is a signed 32-bit [int] in PETSc's default build. *)
Definition PetscInt := Z.

Definition PETSC_MAX_INT : PetscInt := 2147483647.
Definition PETSC_MIN_INT : PetscInt := - PETSC_MAX_INT - 1.

Definition PetscInt_range (z : Z) : bool :=
  (PETSC_MIN_INT <=? z) && (z <=? PETSC_MAX_INT).

(** Ways in which a C++ expression has no defined value. *)
Inductive Fault : Type :=
| SignedOverflow
| DivisionByZero
| OutOfBounds.

(** The value of a C++ expression: defined, or a fault. *)
Inductive eval (A : Type) : Type :=
| Val (a : A)
| Trap (u : Fault).

Arguments Val {A} a.
Arguments Trap {A} u.

Definition eval_bind {A B : Type} (e : eval A) (k : A -> eval B) : eval B :=
  match e with
  | Val a => k a
  | Trap u => Trap u
  end.

(** [a + b] on [PetscInt]: signed overflow is undefined. *)
Definition PetscInt_add (a b : PetscInt) : eval PetscInt :=
  if PetscInt_range (a + b) then Val (a + b) else Trap SignedOverflow.

(** [a % b] on [PetscInt]: truncated remainder; [b == 0] and
    [PETSC_MIN_INT % -1] are undefined. *)
Definition PetscInt_rem (a b : PetscInt) : eval PetscInt :=
  if b =? 0 then Trap DivisionByZero
  else if (a =? PETSC_MIN_INT) && (b =? -1) then Trap SignedOverflow
  else Val (Z.rem a b).

(** [x++] on a [PetscInt] variable: the new value. *)
Definition PetscInt_incr (x : PetscInt) : eval PetscInt := PetscInt_add x 1.

Inductive PetscBool : Type :=
| PETSC_FALSE
| PETSC_TRUE.

(** The C++ conditional [(c) ? PETSC_TRUE : PETSC_FALSE]. *)
Definition PetscBool_of (c : bool) : PetscBool :=
  if c then PETSC_TRUE else PETSC_FALSE.

(* ================================================================== *)
(** * [countNumNonZeros] *)

(** The body of the [for] loop, started at index [i] with [remaining]
    iterations left ([i + remaining = numCols]); [cols[i]] is read from the
    array, and reading past its end is a fault. *)
Fixpoint countNumNonZeros_for (cols : list PetscInt)
    (rowStart rowEnd : PetscInt) (i remaining : nat)
    (d_nnz o_nnz : PetscInt) : eval (PetscInt * PetscInt) :=
  match remaining with
  | O => Val (d_nnz, o_nnz)
  | S remaining' =>
      match nth_error cols i with
      | None => Trap OutOfBounds
      | Some c =>
          if (c >=? rowStart) && (c <? rowEnd)
          then eval_bind (PetscInt_incr d_nnz) (fun d' =>
                 countNumNonZeros_for cols rowStart rowEnd (S i) remaining' d' o_nnz)
          else eval_bind (PetscInt_incr o_nnz) (fun o' =>
                 countNumNonZeros_for cols rowStart rowEnd (S i) remaining' d_nnz o')
      end
  end.

(** [d_nnz] and [o_nnz] are passed by reference: the arguments are the values
    the two variables hold on entry, the result the values they hold on
    return.  [numCols] is a [size_t]. *)
Definition countNumNonZeros (cols : list PetscInt) (numCols : nat)
    (rowStart rowEnd : PetscInt) (d_nnz o_nnz : PetscInt)
    : eval (PetscInt * PetscInt) :=
  let d_nnz := 0 in
  let o_nnz := 0 in
  countNumNonZeros_for cols rowStart rowEnd 0 numCols d_nnz o_nnz.

(** The columns of a row that fall in the owned range [[rowStart, rowEnd)]. *)
Definition in_row_range (rowStart rowEnd c : PetscInt) : bool :=
  (rowStart <=? c) && (c <? rowEnd).

Definition count_local (rowStart rowEnd : PetscInt) (cols : list PetscInt) : nat :=
  List.length (filter (in_row_range rowStart rowEnd) cols).

Definition count_remote (rowStart rowEnd : PetscInt) (cols : list PetscInt) : nat :=
  List.length (filter (fun c => negb (in_row_range rowStart rowEnd c)) cols).

(* ================================================================== *)
(** * Scalars, vectors and matrices *)

(** [PetscScalar] with the arithmetic the solver uses.  The source writes the
    constants [1.0] and [-1.0]; the latter is the negation of the former. *)
Class Scalar : Type := {
  PetscScalar : Type;
  scalar_zero : PetscScalar;
  scalar_one : PetscScalar;
  scalar_opp : PetscScalar -> PetscScalar;
  scalar_add : PetscScalar -> PetscScalar -> PetscScalar;
  scalar_sub : PetscScalar -> PetscScalar -> PetscScalar;
  scalar_mul : PetscScalar -> PetscScalar -> PetscScalar
}.

Declare Scope scalar_scope.
Delimit Scope scalar_scope with sc.
Notation "x + y" := (scalar_add x y) : scalar_scope.
Notation "x - y" := (scalar_sub x y) : scalar_scope.
Notation "x * y" := (scalar_mul x y) : scalar_scope.
Notation "- x" := (scalar_opp x) : scalar_scope.

(** The two identities of scalar arithmetic that relate what PETSc computes
    to what the method's formulas say.  Both hold in every ring and for IEEE
    754 doubles (multiplying by [1.0] or [-1.0] is exact, and [y - x] is
    [(-x) + y]). *)
Class ScalarLaws (F : Scalar) : Prop := {
  scalar_mul_one : forall x : PetscScalar, (scalar_one * x)%sc = x;
  scalar_neg_one_mul_add :
    forall x y : PetscScalar, ((- scalar_one) * x + y)%sc = (y - x)%sc
}.

Section Linear.
Context {F : Scalar}.

(** The contents of a PETSc [Vec]. *)
Definition Vec : Type := list PetscScalar.

(** The contents of a PETSc [Mat], row by row. *)
Definition Mat : Type := list (list PetscScalar).

Definition zip_with (f : PetscScalar -> PetscScalar -> PetscScalar)
    (x y : Vec) : Vec :=
  map (fun xy => f (fst xy) (snd xy)) (combine x y).

(** [w = alpha x + y]. *)
Definition vec_waxpy (alpha : PetscScalar) (x y : Vec) : Vec :=
  zip_with (fun xi yi => alpha * xi + yi)%sc x y.

(** [w = x .* y]. *)
Definition vec_pointwise_mult (x y : Vec) : Vec :=
  zip_with (fun xi yi => xi * yi)%sc x y.

(** [x = alpha x]. *)
Definition vec_scale (alpha : PetscScalar) (x : Vec) : Vec :=
  map (fun xi => alpha * xi)%sc x.

Definition vec_add (x y : Vec) : Vec := zip_with scalar_add x y.
Definition vec_sub (x y : Vec) : Vec := zip_with scalar_sub x y.

(** The inner product of a matrix row with a vector. *)
Fixpoint row_dot (row x : Vec) : PetscScalar :=
  match row, x with
  | a :: row', xi :: x' => (a * xi + row_dot row' x')%sc
  | _, _ => scalar_zero
  end.

(** The matrix-vector product [A x]. *)
Definition mat_vec (A : Mat) (x : Vec) : Vec :=
  map (fun row => row_dot row x) A.

(** A matrix that maps vectors of length [n] to vectors of length [m]. *)
Definition mat_shape (A : Mat) (m n : nat) : bool :=
  (List.length A =? m)%nat
  && forallb (fun row => (List.length row =? n)%nat) A.
End Linear.

(* ================================================================== *)
(** * External collaborators *)

Definition PetscErrorCode := Z.

(** PETSc's error codes for the argument checks modelled below. *)
Definition PETSC_ERR_SUP : PetscErrorCode := 56.
Definition PETSC_ERR_ARG_SIZ : PetscErrorCode := 60.
Definition PETSC_ERR_ARG_IDN : PetscErrorCode := 61.
Definition PETSC_ERR_ARG_INCOMP : PetscErrorCode := 75.
Definition PETSC_ERR_ARG_NULL : PetscErrorCode := 85.

(** [KSPConvergedReason] is an enumeration printed with [%d]: negative values
    mean divergence. *)
Definition KSPConvergedReason := Z.

(** What the solver borrows from outside: the Krylov solver of PETSc and the
    types of the objects it only holds pointers to.

    [KSPSolve_ext ksp b x] is one call [KSPSolve(ksp, b, x)]: the error code,
    the solver context after the call and the contents of [x] after the call
    ([x] on entry is the initial guess).  [KSPGetConvergedReason_ext] reads the
    reason the last solve left in the context. *)
Class External (F : Scalar) : Type := {
  KSP : Type;
  KSPSolve_ext : KSP -> Vec -> Vec -> PetscErrorCode * (KSP * Vec);
  KSPGetConvergedReason_ext : KSP -> KSPConvergedReason;
  DM : Type;
  PC : Type;
  CartesianMesh : Type;
  FlowDescription : Type
}.

(** The fields of [SimulationParameters] the solver reads (the structure is
    declared in [SimulationParameters.h]). *)
Record SimulationParameters : Type := {
  startStep : PetscInt;
  nt : PetscInt;
  nsave : PetscInt
}.

(* ================================================================== *)
(** * The solver object *)

(** The [Vec] members of [NavierStokesSolver]. *)
Inductive VecId : Type :=
| V_qxLocal | V_qyLocal | V_qzLocal
| V_uMapping | V_vMapping | V_wMapping | V_pMapping
| V_H | V_rn
| V_RInv | V_MHat
| V_BN
| V_bc1 | V_rhs1 | V_r2 | V_rhs2 | V_temp
| V_q | V_qStar | V_lambda.

(** The [Mat] members. *)
Inductive MatId : Type :=
| M_A | M_QT | M_BNQ | M_QTBNQ.

(** The [KSP] members. *)
Inductive KSPId : Type :=
| K_ksp1 | K_ksp2.

(** The [DM] members. *)
Inductive DMId : Type :=
| D_pda | D_uda | D_vda | D_wda | D_qPack | D_lambdaPack.

(** The [PetscLogStage] members. *)
Inductive PetscLogStage : Type :=
| stageInitialize
| stageRHSVelocitySystem
| stageSolveVelocitySystem
| stageRHSPoissonSystem
| stageSolvePoissonSystem
| stageProjectionStep.

Definition VecId_eq_dec (a b : VecId) : {a = b} + {a <> b}.
Proof. decide equality. Defined.

Definition KSPId_eq_dec (a b : KSPId) : {a = b} + {a <> b}.
Proof. decide equality. Defined.

Definition VecId_eqb (a b : VecId) : bool :=
  if VecId_eq_dec a b then true else false.

Section Solver.
Context {F : Scalar} {E : External F}.

(** The data members of the class.  A PETSc handle is either [PETSC_NULL]
    ([None]) or refers to an object with the given contents; distinct
    members refer to distinct objects. *)
Record NavierStokesSolver : Type := {
  caseFolder : string;
  flowDesc : FlowDescription;
  simParams : SimulationParameters;
  mesh : CartesianMesh;
  timeStep : PetscInt;
  dms : DMId -> option DM;
  vecs : VecId -> option Vec;
  mats : MatId -> option Mat;
  ksps : KSPId -> option KSP;
  pc2 : option PC
}.

Definition set_timeStep (t : PetscInt) (s : NavierStokesSolver)
    : NavierStokesSolver :=
  {| caseFolder := caseFolder s; flowDesc := flowDesc s;
     simParams := simParams s; mesh := mesh s;
     timeStep := t;
     dms := dms s; vecs := vecs s; mats := mats s; ksps := ksps s;
     pc2 := pc2 s |}.

Definition set_vec (v : VecId) (x : Vec) (s : NavierStokesSolver)
    : NavierStokesSolver :=
  {| caseFolder := caseFolder s; flowDesc := flowDesc s;
     simParams := simParams s; mesh := mesh s;
     timeStep := timeStep s;
     dms := dms s;
     vecs := fun v' => if VecId_eq_dec v v' then Some x else vecs s v';
     mats := mats s; ksps := ksps s;
     pc2 := pc2 s |}.

Definition set_ksp (k : KSPId) (c : KSP) (s : NavierStokesSolver)
    : NavierStokesSolver :=
  {| caseFolder := caseFolder s; flowDesc := flowDesc s;
     simParams := simParams s; mesh := mesh s;
     timeStep := timeStep s;
     dms := dms s; vecs := vecs s; mats := mats s;
     ksps := fun k' => if KSPId_eq_dec k k' then Some c else ksps s k';
     pc2 := pc2 s |}.

(** The constructor.  Every handle it names is set to [PETSC_NULL]; [lambda]
    is not in its list, so that member keeps the indeterminate value
    [lambda0] it had.  The six [PetscLogStageRegister] calls give the stage
    members their identities. *)
Definition NavierStokesSolver_new (directory : string)
    (cartesianMesh : CartesianMesh) (flowDescription : FlowDescription)
    (simulationParameters : SimulationParameters)
    (lambda0 : option Vec) : NavierStokesSolver :=
  {| caseFolder := directory;
     mesh := cartesianMesh;
     flowDesc := flowDescription;
     simParams := simulationParameters;
     timeStep := startStep simulationParameters;
     dms := fun _ => None;
     vecs := fun v => match v with V_lambda => lambda0 | _ => None end;
     mats := fun _ => None;
     ksps := fun _ => None;
     pc2 := None |}.

(** ** [savePoint] and [finished] *)

Definition savePoint (s : NavierStokesSolver) : eval PetscBool :=
  eval_bind (PetscInt_rem (timeStep s) (nsave (simParams s))) (fun r =>
  Val (PetscBool_of (r =? 0))).

Definition finished (s : NavierStokesSolver) : eval PetscBool :=
  eval_bind (PetscInt_add (startStep (simParams s)) (nt (simParams s)))
    (fun limit =>
  Val (PetscBool_of (timeStep s >=? limit))).
End Solver.

(* ================================================================== *)
(** * The running process *)

(** The member functions that make up one time step. *)
Inductive Method : Type :=
| m_calculateExplicitTerms
| m_updateBoundaryGhosts
| m_generateBC1
| m_generateRHS1
| m_solveIntermediateVelocity
| m_generateR2
| m_generateRHS2
| m_solvePoissonSystem
| m_projectionStep.

Section Process.
Context {F : Scalar} {E : External F}.

(** What a run leaves behind, oldest first: entries into the member
    functions above (a history kept for the proofs), the stage pushes and
    pops of PETSc's profiler, the calls of [KSPSolve] that came back (with
    the contents of the solution vector) and the lines printed. *)
Inductive Event : Type :=
| Enter (m : Method)
| StagePush (st : PetscLogStage)
| StagePop
| Solved (k : KSPId) (x : Vec)
| Printed (msg : string).

Record Process : Type := {
  this : NavierStokesSolver;
  trace : list Event
}.

(** How a member function leaves: it returns 0 ([Ok]), [CHKERRQ] returns a
    non-zero error code ([Raise]), [exit] ends the process ([Exit]), or
    an expression had no defined value ([Crash]). *)
Inductive Result (A : Type) : Type :=
| Ok (a : A) (p : Process)
| Raise (ierr : PetscErrorCode) (p : Process)
| Exit (status : Z) (p : Process)
| Crash (u : Fault) (p : Process).

Arguments Ok {A} a p.
Arguments Raise {A} ierr p.
Arguments Exit {A} status p.
Arguments Crash {A} u p.

Definition M (A : Type) : Type := Process -> Result A.

Definition ret {A : Type} (a : A) : M A := fun p => Ok a p.

(** [ierr = m; CHKERRQ(ierr);] followed by [k]. *)
Definition bind {A B : Type} (m : M A) (k : A -> M B) : M B :=
  fun p =>
    match m p with
    | Ok a p' => k a p'
    | Raise ierr p' => Raise ierr p'
    | Exit status p' => Exit status p'
    | Crash u p' => Crash u p'
    end.

(** The process in which a call ended, however it ended. *)
Definition final {A : Type} (r : Result A) : Process :=
  match r with
  | Ok _ p | Raise _ p | Exit _ p | Crash _ p => p
  end.

Definition raise {A : Type} (ierr : PetscErrorCode) : M A :=
  fun p => Raise ierr p.

(** [exit(status)]. *)
Definition exit {A : Type} (status : Z) : M A :=
  fun p => Exit status p.

Definition gets {A : Type} (f : NavierStokesSolver -> A) : M A :=
  fun p => Ok (f (this p)) p.

Definition modify (f : NavierStokesSolver -> NavierStokesSolver) : M unit :=
  fun p => Ok tt {| this := f (this p); trace := trace p |}.

Definition emit (e : Event) : M unit :=
  fun p => Ok tt {| this := this p; trace := trace p ++ [e] |}.

(** The events the run has left behind so far. *)
Definition history : M (list Event) :=
  fun p => Ok (trace p) p.

(** A PETSc routine that returned [ierr], checked by [CHKERRQ]: a non-zero
    code is returned to the caller at once.  (What PETSc's error handler
    writes on the way, a traceback by default, is no event of the trace:
    [Printed] records the lines of [PetscPrintf] only.) *)
Definition chk (ierr : PetscErrorCode) : M unit :=
  if ierr =? 0 then ret tt else raise ierr.
End Process.

Arguments Ok {F E A} a p.
Arguments Raise {F E A} ierr p.
Arguments Exit {F E A} status p.
Arguments Crash {F E A} u p.

Declare Scope petsc_scope.
Delimit Scope petsc_scope with petsc.
Notation "x <- m ;; k" := (bind m (fun x => k))
  (at level 61, m at next level, right associativity) : petsc_scope.
Notation "m ;; k" := (bind m (fun _ => k))
  (at level 61, right associativity) : petsc_scope.

(* ================================================================== *)
(** * The PETSc calls of the solver *)

Definition LF : string := String (ascii_of_nat 10) EmptyString.

(** [%d]. *)
Definition decimal (n : Z) : string := NilZero.string_of_int (Z.to_int n).

(** What PETSc's profiler and [PetscPrintf] answer: the error code of each
    call, given the events the run has left behind when the call is made.
    A call that succeeds leaves an event, so the next call is made with a
    longer history and may be answered differently; a call that fails leaves
    none (a failed [PetscPrintf] is taken to have printed nothing). *)
Class Reporting (F : Scalar) : Type := {
  PetscLogStagePush_ext : list Event -> PetscLogStage -> PetscErrorCode;
  PetscLogStagePop_ext : list Event -> PetscErrorCode;
  PetscPrintf_ext : list Event -> string -> PetscErrorCode
}.

Section Petsc.
Context {F : Scalar} {E : External F} {Rep : Reporting F}.
Local Open Scope petsc_scope.

(** A handle passed to PETSc must not be [PETSC_NULL]: PETSc, built with its
    argument checks (the default build), returns [PETSC_ERR_ARG_NULL] for a
    null handle.  (A build without them dereferences the handle; that build
    is not modelled.) *)
Definition get_vec (v : VecId) : M Vec :=
  h <- gets (fun s => vecs s v) ;;
  match h with
  | Some x => ret x
  | None => raise PETSC_ERR_ARG_NULL
  end.

Definition get_mat (m : MatId) : M Mat :=
  h <- gets (fun s => mats s m) ;;
  match h with
  | Some x => ret x
  | None => raise PETSC_ERR_ARG_NULL
  end.

Definition get_ksp (k : KSPId) : M KSP :=
  h <- gets (fun s => ksps s k) ;;
  match h with
  | Some x => ret x
  | None => raise PETSC_ERR_ARG_NULL
  end.

Definition same_size (x y : Vec) : bool :=
  (List.length x =? List.length y)%nat.

(** [VecWAXPY(w, alpha, x, y)]: [w = alpha x + y]; [w] may be neither [x]
    nor [y], and the three sizes agree. *)
Definition VecWAXPY (w : VecId) (alpha : PetscScalar) (x y : VecId) : M unit :=
  ws <- get_vec w ;;
  xs <- get_vec x ;;
  ys <- get_vec y ;;
  if VecId_eqb w x || VecId_eqb w y then raise PETSC_ERR_SUP
  else if same_size xs ys && same_size ws xs
  then modify (set_vec w (vec_waxpy alpha xs ys))
  else raise PETSC_ERR_ARG_INCOMP.

(** [VecPointwiseMult(w, x, y)]: [w = x .* y]; any of the three may be the
    same vector. *)
Definition VecPointwiseMult (w x y : VecId) : M unit :=
  ws <- get_vec w ;;
  xs <- get_vec x ;;
  ys <- get_vec y ;;
  if same_size xs ys && same_size ws xs
  then modify (set_vec w (vec_pointwise_mult xs ys))
  else raise PETSC_ERR_ARG_INCOMP.

(** [VecScale(x, alpha)]: [x = alpha x]. *)
Definition VecScale (x : VecId) (alpha : PetscScalar) : M unit :=
  xs <- get_vec x ;;
  modify (set_vec x (vec_scale alpha xs)).

(** [MatMult(mat, x, y)]: [y = mat x]; [x] and [y] are different vectors. *)
Definition MatMult (mat : MatId) (x y : VecId) : M unit :=
  a <- get_mat mat ;;
  xs <- get_vec x ;;
  ys <- get_vec y ;;
  if VecId_eqb x y then raise PETSC_ERR_ARG_IDN
  else if mat_shape a (List.length ys) (List.length xs)
  then modify (set_vec y (mat_vec a xs))
  else raise PETSC_ERR_ARG_SIZ.

(** [MatMultAdd(mat, v1, v2, v3)]: [v3 = v2 + mat v1]; [v1] and [v3] are
    different vectors. *)
Definition MatMultAdd (mat : MatId) (v1 v2 v3 : VecId) : M unit :=
  a <- get_mat mat ;;
  x1 <- get_vec v1 ;;
  x2 <- get_vec v2 ;;
  x3 <- get_vec v3 ;;
  if VecId_eqb v1 v3 then raise PETSC_ERR_ARG_IDN
  else if mat_shape a (List.length x3) (List.length x1) && same_size x2 x3
  then modify (set_vec v3 (vec_add x2 (mat_vec a x1)))
  else raise PETSC_ERR_ARG_SIZ.

(** [KSPSolve(ksp, b, x)]: whatever the external solver does to its context
    and to [x] is done, then its error code is returned. *)
Definition KSPSolve (ksp : KSPId) (b x : VecId) : M unit :=
  c <- get_ksp ksp ;;
  bs <- get_vec b ;;
  xs <- get_vec x ;;
  let r := KSPSolve_ext c bs xs in
  modify (set_ksp ksp (fst (snd r))) ;;
  modify (set_vec x (snd (snd r))) ;;
  emit (Solved ksp (snd (snd r))) ;;
  chk (fst r).

(** [KSPGetConvergedReason(ksp, &reason)]: it reads the reason out of the
    context, and fails only on a null handle. *)
Definition KSPGetConvergedReason (ksp : KSPId) : M KSPConvergedReason :=
  c <- get_ksp ksp ;;
  ret (KSPGetConvergedReason_ext c).

(** [PetscLogStagePush(st)]: the stage is pushed, unless the call fails. *)
Definition PetscLogStagePush (st : PetscLogStage) : M unit :=
  t <- history ;;
  chk (PetscLogStagePush_ext t st) ;;
  emit (StagePush st).

(** [PetscLogStagePop()]: the stage is popped, unless the call fails. *)
Definition PetscLogStagePop : M unit :=
  t <- history ;;
  chk (PetscLogStagePop_ext t) ;;
  emit StagePop.

(** [PetscPrintf(PETSC_COMM_WORLD, format, n)] for a format with one [%d]:
    [before] and [after] are the text around it.  The line is printed,
    unless the call fails. *)
Definition PetscPrintf (before : string) (n : Z) (after : string) : M unit :=
  t <- history ;;
  chk (PetscPrintf_ext t (before ++ decimal n ++ after)) ;;
  emit (Printed (before ++ decimal n ++ after)).

(** Entry into a member function. *)
Definition enter (m : Method) : M unit := emit (Enter m).

(** [timeStep++]. *)
Definition timeStep_incr : M unit :=
  t <- gets timeStep ;;
  match PetscInt_incr t with
  | Val t' => modify (set_timeStep t')
  | Trap u => fun p => Crash u p
  end.
End Petsc.

(* ================================================================== *)
(** * The member functions of one time step *)

(** What the four member functions defined in [inline/*.inl] (files whose
    text is not at hand) compute from the solver's state: the error code of
    the function, and the contents it assembles. *)
Class InlineSources (F : Scalar) (E : External F) : Type := {
  explicitTerms : NavierStokesSolver -> PetscErrorCode * (Vec * Vec);
  ghostValues : NavierStokesSolver -> PetscErrorCode * (VecId -> Vec);
  boundaryTerms : NavierStokesSolver -> PetscErrorCode * Vec;
  boundaryResidual : NavierStokesSolver -> PetscErrorCode * Vec
}.

Section Step.
Context {F : Scalar} {E : External F} {Rep : Reporting F}
  {I : InlineSources F E}.
Local Open Scope petsc_scope.

(** Modelled from the spec: [inline/calculateExplicitTerms.inl] is missing.
    "Evaluate explicit advection/diffusion contribution into [H]/[rn] using
    the current [q] and ghost-exchanged boundary values." *)
Definition calculateExplicitTerms : M unit :=
  enter m_calculateExplicitTerms ;;
  r <- gets explicitTerms ;;
  chk (fst r) ;;
  modify (set_vec V_H (fst (snd r))) ;;
  modify (set_vec V_rn (snd (snd r))) ;;
  ret tt.

(** The local copy [v] is refreshed when the solver has one (there is no
    [qzLocal] in two dimensions). *)
Definition refresh_local (values : VecId -> Vec) (v : VecId) : M unit :=
  h <- gets (fun s => vecs s v) ;;
  match h with
  | Some _ => modify (set_vec v (values v))
  | None => ret tt
  end.

(** Modelled from the spec: [inline/updateBoundaryGhosts.inl] is missing.
    "Refresh ghost/boundary values for the next evaluation", the values
    living in the "ghost-exchanged local copies per velocity component". *)
Definition updateBoundaryGhosts : M unit :=
  enter m_updateBoundaryGhosts ;;
  r <- gets ghostValues ;;
  chk (fst r) ;;
  refresh_local (snd r) V_qxLocal ;;
  refresh_local (snd r) V_qyLocal ;;
  refresh_local (snd r) V_qzLocal ;;
  ret tt.

(** Modelled from the spec: [inline/generateBC1.inl] is missing.
    "Assemble boundary-condition contribution vector [bc1] from current
    boundary-condition configuration." *)
Definition generateBC1 : M unit :=
  enter m_generateBC1 ;;
  r <- gets boundaryTerms ;;
  chk (fst r) ;;
  modify (set_vec V_bc1 (snd r)) ;;
  ret tt.

(** Modelled from the spec: [inline/generateR2.inl] is missing.
    "Assemble variant-specific [r2] (boundary/no-slip residual; zero vector
    for the plain Navier-Stokes variant ...)". *)
Definition generateR2 : M unit :=
  enter m_generateR2 ;;
  r <- gets boundaryResidual ;;
  chk (fst r) ;;
  modify (set_vec V_r2 (snd r)) ;;
  ret tt.

Definition generateRHS1 : M unit :=
  enter m_generateRHS1 ;;
  VecWAXPY V_rhs1 scalar_one V_rn V_bc1 ;;
  VecPointwiseMult V_rhs1 V_MHat V_rhs1 ;;
  ret tt.

Definition generateRHS2 : M unit :=
  enter m_generateRHS2 ;;
  VecScale V_r2 (- scalar_one)%sc ;;
  MatMultAdd M_QT V_qStar V_r2 V_rhs2 ;;
  ret tt.

Definition solveIntermediateVelocity : M unit :=
  enter m_solveIntermediateVelocity ;;
  PetscLogStagePush stageSolveVelocitySystem ;;
  KSPSolve K_ksp1 V_rhs1 V_qStar ;;
  PetscLogStagePop ;;
  reason <- KSPGetConvergedReason K_ksp1 ;;
  (if reason <? 0
   then PetscPrintf "Velocity solve diverged due to reason: " reason LF ;;
        exit 0
   else ret tt) ;;
  ret tt.

Definition solvePoissonSystem : M unit :=
  enter m_solvePoissonSystem ;;
  PetscLogStagePush stageSolvePoissonSystem ;;
  KSPSolve K_ksp2 V_rhs2 V_lambda ;;
  PetscLogStagePop ;;
  reason <- KSPGetConvergedReason K_ksp2 ;;
  (if reason <? 0
   then PetscPrintf "Poisson solve diverged due to reason: " reason LF ;;
        exit 0
   else ret tt) ;;
  ret tt.

Definition projectionStep : M unit :=
  enter m_projectionStep ;;
  MatMult M_BNQ V_lambda V_temp ;;
  VecWAXPY V_q (- scalar_one)%sc V_temp V_qStar ;;
  ret tt.

Definition stepTime : M unit :=
  PetscLogStagePush stageRHSVelocitySystem ;;
  calculateExplicitTerms ;;
  updateBoundaryGhosts ;;
  generateBC1 ;;
  generateRHS1 ;;
  PetscLogStagePop ;;
  solveIntermediateVelocity ;;
  PetscLogStagePush stageRHSPoissonSystem ;;
  generateR2 ;;
  generateRHS2 ;;
  PetscLogStagePop ;;
  solvePoissonSystem ;;
  PetscLogStagePush stageProjectionStep ;;
  projectionStep ;;
  PetscLogStagePop ;;
  timeStep_incr ;;
  ret tt.

(** [n] calls of [stepTime], one after the other. *)
Fixpoint stepTimes (n : nat) : M unit :=
  match n with
  | O => ret tt
  | S n' => stepTime ;; stepTimes n'
  end.

(** The member functions entered since the trace began. *)
Fixpoint entered (t : list Event) : list Method :=
  match t with
  | [] => []
  | Enter m :: t' => m :: entered t'
  | _ :: t' => entered t'
  end.

(** The solution vectors of the [KSPSolve] calls in a trace. *)
Fixpoint solutions (t : list Event) : list (KSPId * Vec) :=
  match t with
  | [] => []
  | Solved k x :: t' => (k, x) :: solutions t'
  | _ :: t' => solutions t'
  end.

(** The lines printed in a trace. *)
Fixpoint printed (t : list Event) : list string :=
  match t with
  | [] => []
  | Printed msg :: t' => msg :: printed t'
  | _ :: t' => printed t'
  end.
End Step.

(** The sub-steps of one time step, in the order of the method. *)
Definition step_sequence : list Method :=
  [ m_calculateExplicitTerms; m_updateBoundaryGhosts; m_generateBC1;
    m_generateRHS1; m_solveIntermediateVelocity; m_generateR2;
    m_generateRHS2; m_solvePoissonSystem; m_projectionStep ].

(** [needle] occurs in [hay]. *)
Fixpoint occurs_in (needle hay : string) : bool :=
  String.prefix needle hay
  || match hay with
     | EmptyString => false
     | String _ hay' => occurs_in needle hay'
     end.

(** The line printed when a solve has diverged. *)
Definition diverged_line (which : string) (reason : KSPConvergedReason) : string :=
  (which ++ " solve diverged due to reason: " ++ decimal reason ++ LF)%string.

(** ** The two linear systems

    System 1 is solved by [ksp1] for [qStar] given [rhs1], System 2 by [ksp2]
    for [lambda] given [rhs2]. *)
Definition system_rhs (k : KSPId) : VecId :=
  match k with K_ksp1 => V_rhs1 | K_ksp2 => V_rhs2 end.

Definition system_unknown (k : KSPId) : VecId :=
  match k with K_ksp1 => V_qStar | K_ksp2 => V_lambda end.

Definition system_method (k : KSPId) : Method :=
  match k with
  | K_ksp1 => m_solveIntermediateVelocity
  | K_ksp2 => m_solvePoissonSystem
  end.

Definition system_stage (k : KSPId) : PetscLogStage :=
  match k with
  | K_ksp1 => stageSolveVelocitySystem
  | K_ksp2 => stageSolvePoissonSystem
  end.

Definition system_name (k : KSPId) : string :=
  match k with K_ksp1 => "Velocity" | K_ksp2 => "Poisson" end.

Section Systems.
Context {F : Scalar} {E : External F} {Rep : Reporting F}.

Definition system_solve (k : KSPId) : M unit :=
  match k with
  | K_ksp1 => solveIntermediateVelocity
  | K_ksp2 => solvePoissonSystem
  end.
End Systems.

(* ================================================================== *)
(** * What a call does to the process *)

Section Effects.
Context {F : Scalar} {E : External F}.

(** A projection [f] of the process that the call [m] never changes, however
    the call ends. *)
Definition keeps {A X : Type} (f : Process -> X) (m : M A) : Prop :=
  forall p, f (final (m p)) = f p.

(** A call that returns normally has entered exactly [L]; a call that ends
    any other way has entered the first few of [L]. *)
Definition enters {A : Type} (m : M A) (L : list Method) : Prop :=
  forall p,
    match m p with
    | Ok _ p' => entered (trace p') = entered (trace p) ++ L
    | r => exists done rest,
             L = done ++ rest
             /\ entered (trace (final r)) = entered (trace p) ++ done
    end.

(** A call that returns normally has added [n] to the step counter; a call
    that ends any other way has left it alone. *)
Definition advances {A : Type} (m : M A) (n : Z) : Prop :=
  forall p,
    match m p with
    | Ok _ p' => timeStep (this p') = timeStep (this p) + n
    | r => timeStep (this (final r)) = timeStep (this p)
    end.

(** What links the two solves to the projection: the solutions returned so
    far, the operator [BNQ], and the vectors [qStar] and [lambda]. *)
Definition link (p : Process) :=
  (solutions (trace p), mats (this p) M_BNQ,
   vecs (this p) V_qStar, vecs (this p) V_lambda).
End Effects.

(* ================================================================== *)
(** * A small concrete solver *)

(** Integer scalars, a Krylov solver that copies the right-hand side into the
    solution and reports the reason stored in its context, and a solver with
    two fluxes and one pressure unknown.  The examples below run on it. *)
Module Demo.
#[export] Instance scalarZ : Scalar := {|
  PetscScalar := Z;
  scalar_zero := 0;
  scalar_one := 1;
  scalar_opp := Z.opp;
  scalar_add := Z.add;
  scalar_sub := Z.sub;
  scalar_mul := Z.mul
|}.

#[export] Instance externalZ : External scalarZ := {|
  KSP := KSPConvergedReason;
  KSPSolve_ext := fun c b x => (0, (c, b));
  KSPGetConvergedReason_ext := fun c => c;
  DM := unit;
  PC := unit;
  CartesianMesh := unit;
  FlowDescription := unit
|}.

(** The profiler and [PetscPrintf] never fail. *)
#[export] Instance reportingZ : Reporting scalarZ := {|
  PetscLogStagePush_ext := fun _ _ => 0;
  PetscLogStagePop_ext := fun _ => 0;
  PetscPrintf_ext := fun _ _ => 0
|}.

(** [PetscPrintf] fails with code 66, the profiler does not. *)
Definition printfFails : Reporting scalarZ := {|
  PetscLogStagePush_ext := fun _ _ => 0;
  PetscLogStagePop_ext := fun _ => 0;
  PetscPrintf_ext := fun _ _ => 66
|}.

#[export] Instance inlineZ : InlineSources scalarZ externalZ := {|
  explicitTerms := fun _ => (0, ([1; 2], [3; 4]));
  ghostValues := fun _ => (0, fun _ => [0; 0]);
  boundaryTerms := fun _ => (0, [1; 1]);
  boundaryResidual := fun _ => (0, [5])
|}.

#[export] Instance lawsZ : ScalarLaws scalarZ.
Proof.
  split.
  - intros x. change (1 * x = x). lia.
  - intros x y. change (- (1) * x + y = y - x). lia.
Qed.

Definition parameters : SimulationParameters :=
  {| startStep := 7; nt := 3; nsave := 2 |}.

(** One step asked for, from the last index a [PetscInt] holds. *)
Definition parameters_edge : SimulationParameters :=
  {| startStep := 2147483647; nt := 1; nsave := 2 |}.

(** The solver after [initialize]: every vector and operator of a step
    exists, with two fluxes and one pressure unknown; both Krylov contexts
    will report [reason1] and [reason2]. *)
Definition solver (reason1 reason2 : KSPConvergedReason)
    : @NavierStokesSolver scalarZ externalZ :=
  {| caseFolder := "case";
     flowDesc := tt;
     simParams := parameters;
     mesh := tt;
     timeStep := 7;
     dms := fun _ => Some tt;
     vecs := fun v =>
       match v with
       | V_rn => Some [3; 4]
       | V_bc1 => Some [1; 1]
       | V_MHat => Some [2; 3]
       | V_qStar => Some [8; 15]
       | V_r2 => Some [5]
       | V_rhs2 => Some [0]
       | V_lambda => Some [18]
       | V_qzLocal | V_wMapping => None
       | V_pMapping => Some [0]
       | _ => Some [0; 0]
       end;
     mats := fun m =>
       match m with
       | M_A => Some [[1; 0]; [0; 1]]
       | M_QT => Some [[1; 1]]
       | M_BNQ => Some [[1]; [2]]
       | M_QTBNQ => Some [[3]]
       end;
     ksps := fun k =>
       match k with
       | K_ksp1 => Some reason1
       | K_ksp2 => Some reason2
       end;
     pc2 := Some tt |}.

Definition process (reason1 reason2 : KSPConvergedReason) : Process :=
  {| this := solver reason1 reason2; trace := [] |}.
End Demo.


(* ================================================================== *)
(** * What the sub-steps of the source write *)

Section Footprint.
Context {F : Scalar} {E : External F}.

(** Everything in the solver but its vectors and its Krylov contexts. *)
Definition fixed_part (p : Process) :=
  (caseFolder (this p), flowDesc (this p), simParams (this p), mesh (this p),
   timeStep (this p), dms (this p), mats (this p), pc2 (this p)).
End Footprint.

(* ================================================================== *)
(** * How a call ends and what it has added to the trace *)

(** The four ways a call ends, without the process it ends in. *)
Inductive Ending : Type :=
| Returned
| Raised (ierr : PetscErrorCode)
| Exited (status : Z)
| Crashed (u : Fault).

Section Endings.
Context {F : Scalar} {E : External F} {Rep : Reporting F}.

Definition ending {A : Type} (r : Result A) : Ending :=
  match r with
  | Ok _ _ => Returned
  | Raise ierr _ => Raised ierr
  | Exit status _ => Exited status
  | Crash u _ => Crashed u
  end.

(** The number of profiler stages a trace has pushed and not popped. *)
Fixpoint stage_depth (t : list Event) : Z :=
  match t with
  | [] => 0
  | StagePush _ :: t' => stage_depth t' + 1
  | StagePop :: t' => stage_depth t' - 1
  | _ :: t' => stage_depth t'
  end.

(** Every call of [m] extends the trace by some events [t], and its ending
    and [t] satisfy [P]. *)
Definition yields {A : Type} (m : M A) (P : Ending -> list Event -> Prop) : Prop :=
  forall p, exists t,
    trace (final (m p)) = trace p ++ t /\ P (ending (m p)) t.

(** No call of the profiler and no call of [PetscPrintf] fails. *)
Definition reporting_succeeds : Prop :=
  (forall t st, PetscLogStagePush_ext t st = 0)
  /\ (forall t, PetscLogStagePop_ext t = 0)
  /\ (forall t line, PetscPrintf_ext t line = 0).

(** A call that prints nothing, leaves the stage stack as it found it, and
    either returns or raises a non-zero error code. *)
Definition quiet (e : Ending) (t : list Event) : Prop :=
  match e with
  | Returned => stage_depth t = 0 /\ printed t = []
  | Raised ierr => ierr <> 0 /\ stage_depth t = 0 /\ printed t = []
  | _ => False
  end.

(** One reporting call that leaves the event [ev] when it succeeds: it
    returns having left [ev], or it raises a non-zero error code having left
    nothing, and then a reporting call has failed. *)
Definition reports (ev : Event) (e : Ending) (t : list Event) : Prop :=
  match e with
  | Returned => t = [ev]
  | Raised ierr => ierr <> 0 /\ t = [] /\ ~ reporting_succeeds
  | _ => False
  end.

(** The solve of system [k]: it returns, or raises a non-zero error code
    (from inside its stage, unless it was a reporting call that failed), or
    exits with status 0 after printing the one line of a diverged solve, its
    stage popped. *)
Definition solve_ending (k : KSPId) (e : Ending) (t : list Event) : Prop :=
  match e with
  | Returned => stage_depth t = 0 /\ printed t = []
  | Raised ierr =>
      ierr <> 0 /\ printed t = []
      /\ (reporting_succeeds -> stage_depth t = 1)
  | Exited status =>
      status = 0 /\ stage_depth t = 0
      /\ exists reason : KSPConvergedReason,
           reason < 0 /\ printed t = [diverged_line (system_name k) reason]
  | Crashed _ => False
  end.

(** What one call of [stepTime] adds to the trace, by its ending. *)
Definition stepTime_ending (e : Ending) (t : list Event) : Prop :=
  match e with
  | Returned => stage_depth t = 0 /\ printed t = []
  | Raised ierr =>
      ierr <> 0 /\ printed t = []
      /\ (reporting_succeeds -> stage_depth t = 1)
  | Exited status =>
      status = 0 /\ stage_depth t = 0
      /\ exists (k : KSPId) (reason : KSPConvergedReason),
           reason < 0 /\ printed t = [diverged_line (system_name k) reason]
  | Crashed u => u = SignedOverflow /\ stage_depth t = 0 /\ printed t = []
  end.
End Endings.

(* ================================================================== *)
(** * [finalize] *)

(** What [finalize] asks of PETSc: the four destroy routines, each with the
    error code it returns for the object it is given, and the viewer that
    writes the performance summary ([PetscViewerASCIIOpen] of a file name,
    [PetscLogView], [PetscViewerDestroy]).  The summary file itself is outside
    the model: the answers of the viewer are those of one moment, and
    nothing below compares two writings of the summary. *)
Class Teardown (F : Scalar) (E : External F) : Type := {
  DMDestroy_ext : DM -> PetscErrorCode;
  VecDestroy_ext : Vec -> PetscErrorCode;
  MatDestroy_ext : Mat -> PetscErrorCode;
  KSPDestroy_ext : KSP -> PetscErrorCode;
  PetscViewer : Type;
  PetscViewerASCIIOpen_ext : string -> PetscErrorCode * PetscViewer;
  PetscLogView_ext : PetscViewer -> PetscErrorCode;
  PetscViewerDestroy_ext : PetscViewer -> PetscErrorCode
}.

(** A handle member of the solver. *)
Inductive Handle : Type :=
| HDM (d : DMId)
| HVec (v : VecId)
| HMat (m : MatId)
| HKSP (k : KSPId).

Definition MatId_eq_dec (a b : MatId) : {a = b} + {a <> b}.
Proof. decide equality. Defined.

Definition DMId_eq_dec (a b : DMId) : {a = b} + {a <> b}.
Proof. decide equality. Defined.

Definition Handle_eq_dec (a b : Handle) : {a = b} + {a <> b}.
Proof.
  decide equality;
    [apply DMId_eq_dec | apply VecId_eq_dec | apply MatId_eq_dec
    | apply KSPId_eq_dec].
Defined.

Section Finalize.
Context {F : Scalar} {E : External F} {T : Teardown F E}.
Local Open Scope petsc_scope.

(** [h != PETSC_NULL]. *)
Definition is_set (h : Handle) (s : NavierStokesSolver) : bool :=
  match h with
  | HDM d => match dms s d with Some _ => true | None => false end
  | HVec v => match vecs s v with Some _ => true | None => false end
  | HMat m => match mats s m with Some _ => true | None => false end
  | HKSP k => match ksps s k with Some _ => true | None => false end
  end.

(** The handle [h] set to [PETSC_NULL]. *)
Definition set_null (h : Handle) (s : NavierStokesSolver) : NavierStokesSolver :=
  {| caseFolder := caseFolder s; flowDesc := flowDesc s;
     simParams := simParams s; mesh := mesh s;
     timeStep := timeStep s;
     dms := match h with
            | HDM d => fun d' => if DMId_eq_dec d d' then None else dms s d'
            | _ => dms s
            end;
     vecs := match h with
             | HVec v => fun v' => if VecId_eq_dec v v' then None else vecs s v'
             | _ => vecs s
             end;
     mats := match h with
             | HMat m => fun m' => if MatId_eq_dec m m' then None else mats s m'
             | _ => mats s
             end;
     ksps := match h with
             | HKSP k => fun k' => if KSPId_eq_dec k k' then None else ksps s k'
             | _ => ksps s
             end;
     pc2 := pc2 s |}.

(** The error code of the destroy routine of [h] on the object [h] refers
    to; a null handle is left alone with code 0. *)
Definition destroy_code (h : Handle) (s : NavierStokesSolver) : PetscErrorCode :=
  match h with
  | HDM d => match dms s d with Some x => DMDestroy_ext x | None => 0 end
  | HVec v => match vecs s v with Some x => VecDestroy_ext x | None => 0 end
  | HMat m => match mats s m with Some x => MatDestroy_ext x | None => 0 end
  | HKSP k => match ksps s k with Some x => KSPDestroy_ext x | None => 0 end
  end.

(** [DMDestroy(&h)], [VecDestroy(&h)], [MatDestroy(&h)] and [KSPDestroy(&h)]:
    the object is destroyed and the handle nulled, unless the routine
    fails. *)
Definition Destroy (h : Handle) : M unit :=
  ierr <- gets (destroy_code h) ;;
  chk ierr ;;
  modify (set_null h).

(** [if(h!=PETSC_NULL) {ierr = Destroy(&h); CHKERRQ(ierr);}]. *)
Definition destroy_if_set (h : Handle) : M unit :=
  b <- gets (is_set h) ;;
  if b then Destroy h else ret tt.

Definition finalize : M unit :=
  (* DMs *)
  destroy_if_set (HDM D_pda) ;;
  destroy_if_set (HDM D_uda) ;;
  destroy_if_set (HDM D_vda) ;;
  destroy_if_set (HDM D_wda) ;;
  destroy_if_set (HDM D_qPack) ;;
  destroy_if_set (HDM D_lambdaPack) ;;
  (* Vecs *)
  destroy_if_set (HVec V_q) ;;
  destroy_if_set (HVec V_qStar) ;;
  destroy_if_set (HVec V_qxLocal) ;;
  destroy_if_set (HVec V_qyLocal) ;;
  destroy_if_set (HVec V_qzLocal) ;;
  destroy_if_set (HVec V_H) ;;
  destroy_if_set (HVec V_rn) ;;
  destroy_if_set (HVec V_bc1) ;;
  destroy_if_set (HVec V_rhs1) ;;
  destroy_if_set (HVec V_temp) ;;
  destroy_if_set (HVec V_lambda) ;;
  destroy_if_set (HVec V_r2) ;;
  destroy_if_set (HVec V_rhs2) ;;
  destroy_if_set (HVec V_uMapping) ;;
  destroy_if_set (HVec V_vMapping) ;;
  destroy_if_set (HVec V_wMapping) ;;
  destroy_if_set (HVec V_pMapping) ;;
  destroy_if_set (HVec V_MHat) ;;
  destroy_if_set (HVec V_RInv) ;;
  destroy_if_set (HVec V_BN) ;;
  (* Mats *)
  destroy_if_set (HMat M_A) ;;
  destroy_if_set (HMat M_QT) ;;
  destroy_if_set (HMat M_BNQ) ;;
  destroy_if_set (HMat M_QTBNQ) ;;
  (* KSPs *)
  destroy_if_set (HKSP K_ksp1) ;;
  destroy_if_set (HKSP K_ksp2) ;;
  (* Print performance summary to file *)
  performanceSummaryFileName <-
    gets (fun s => (caseFolder s ++ "/performanceSummary.txt")%string) ;;
  let opened := PetscViewerASCIIOpen_ext performanceSummaryFileName in
  chk (fst opened) ;;
  chk (PetscLogView_ext (snd opened)) ;;
  chk (PetscViewerDestroy_ext (snd opened)) ;;
  ret tt.

(** The handles [finalize] releases, in its order. *)
Definition finalize_order : list Handle :=
  [ HDM D_pda; HDM D_uda; HDM D_vda; HDM D_wda; HDM D_qPack; HDM D_lambdaPack;
    HVec V_q; HVec V_qStar; HVec V_qxLocal; HVec V_qyLocal; HVec V_qzLocal;
    HVec V_H; HVec V_rn; HVec V_bc1; HVec V_rhs1; HVec V_temp; HVec V_lambda;
    HVec V_r2; HVec V_rhs2; HVec V_uMapping; HVec V_vMapping; HVec V_wMapping;
    HVec V_pMapping; HVec V_MHat; HVec V_RInv; HVec V_BN;
    HMat M_A; HMat M_QT; HMat M_BNQ; HMat M_QTBNQ;
    HKSP K_ksp1; HKSP K_ksp2 ].

(** The last part of [finalize]: the performance summary. *)
Definition write_summary : M unit :=
  performanceSummaryFileName <-
    gets (fun s => (caseFolder s ++ "/performanceSummary.txt")%string) ;;
  let opened := PetscViewerASCIIOpen_ext performanceSummaryFileName in
  chk (fst opened) ;;
  chk (PetscLogView_ext (snd opened)) ;;
  chk (PetscViewerDestroy_ext (snd opened)) ;;
  ret tt.

(** [destroy_if_set] on each handle of a list in turn, then [k]. *)
Fixpoint destroy_all (l : list Handle) (k : M unit) : M unit :=
  match l with
  | [] => k
  | h :: l' => destroy_if_set h ;; destroy_all l' k
  end.

(** What a handle refers to, whatever its kind. *)
Inductive Object : Type :=
| ODM (x : DM)
| OVec (x : Vec)
| OMat (x : Mat)
| OKSP (x : KSP).

Definition object (h : Handle) (s : NavierStokesSolver) : option Object :=
  match h with
  | HDM d => option_map ODM (dms s d)
  | HVec v => option_map OVec (vecs s v)
  | HMat m => option_map OMat (mats s m)
  | HKSP k => option_map OKSP (ksps s k)
  end.

(** The members [finalize] has no statement for. *)
Definition kept_by_finalize (p : Process) :=
  (caseFolder (this p), flowDesc (this p), simParams (this p), mesh (this p),
   timeStep (this p), pc2 (this p), trace p).
End Finalize.

(* ================================================================== *)
(** * [generateQTBNQ] *)

(** PETSc's event profiler, as [generateQTBNQ] uses it: registering an event
    by name, and the begin and end marks, each with its error code. *)
Class EventLog : Type := {
  PetscLogEvent : Type;
  PetscLogEventRegister_ext : string -> PetscErrorCode * PetscLogEvent;
  PetscLogEventBegin_ext : PetscLogEvent -> PetscErrorCode;
  PetscLogEventEnd_ext : PetscLogEvent -> PetscErrorCode
}.

(** Exact arithmetic: the scalars form a commutative ring. *)
Class ScalarRing (F : Scalar) : Prop := {
  scalar_ring :
    ring_theory scalar_zero scalar_one scalar_add scalar_mul scalar_sub
      scalar_opp (@eq PetscScalar)
}.

Section Products.
Context {F : Scalar}.

(** Column [j] of a matrix. *)
Definition mat_col (j : nat) (B : Mat) : Vec :=
  map (fun row => nth j row scalar_zero) B.

(** The number of columns of a matrix with at least one row. *)
Definition mat_width (B : Mat) : nat :=
  match B with
  | [] => 0
  | row :: _ => List.length row
  end.

(** Every row of [B] has the width of the first. *)
Definition rectangular (B : Mat) : bool :=
  mat_shape B (List.length B) (mat_width B).

(** The matrix product [A B]: entry [(i, j)] is row [i] of [A] times column
    [j] of [B]. *)
Definition mat_mul (A B : Mat) : Mat :=
  map (fun row => map (fun j => row_dot row (mat_col j B))
                    (seq 0 (mat_width B))) A.
End Products.

Section GenerateQTBNQ.
Context {F : Scalar} {E : External F} {G : EventLog}.
Local Open Scope petsc_scope.

Definition set_mat (m : MatId) (a : Mat) (s : NavierStokesSolver)
    : NavierStokesSolver :=
  {| caseFolder := caseFolder s; flowDesc := flowDesc s;
     simParams := simParams s; mesh := mesh s;
     timeStep := timeStep s;
     dms := dms s; vecs := vecs s;
     mats := fun m' => if MatId_eq_dec m m' then Some a else mats s m';
     ksps := ksps s;
     pc2 := pc2 s |}.

(** [MatMatMult(A, B, MAT_INITIAL_MATRIX, PETSC_DEFAULT, &C)]: a new matrix
    [A B] is created and [C] made to refer to it; [A] must have as many
    columns as [B] has rows. *)
Definition MatMatMult (A B C : MatId) : M unit :=
  a <- get_mat A ;;
  b <- get_mat B ;;
  if mat_shape a (List.length a) (List.length b)
  then modify (set_mat C (mat_mul a b))
  else raise PETSC_ERR_ARG_SIZ.

Definition generateQTBNQ : M unit :=
  let registered := PetscLogEventRegister_ext "generateQTBNQ" in
  chk (fst registered) ;;
  let GENERATE_QTBNQ := snd registered in
  chk (PetscLogEventBegin_ext GENERATE_QTBNQ) ;;
  MatMatMult M_QT M_BNQ M_QTBNQ ;;
  chk (PetscLogEventEnd_ext GENERATE_QTBNQ) ;;
  ret tt.
End GenerateQTBNQ.

(* ================================================================== *)
(** * [MeshBase]: [destroy] and the destructor (mesh.cpp) *)

Module Mesh.
Section MeshBase.
Context {F : Scalar} {E : External F} {T : Teardown F E}.

(** The members [destroy] and the destructor name.  The class declaration is
    not part of the sources: the containers are lists, of which only
    emptiness matters here, and [da] is indexed with a bounds check.  A
    handle is [None] when it is null. *)
Record MeshBase : Type := {
  dim : PetscInt;
  min : list PetscScalar;
  max : list PetscScalar;
  n : list (list PetscInt);
  periodic : list (list bool);
  coord : list (list (list PetscScalar));
  dL : list (list (list PetscScalar));
  UN : PetscInt;
  pN : PetscInt;
  info : string;
  da : list (option DM);
  nProc : list PetscInt;
  bg : list (list PetscInt);
  ed : list (list PetscInt);
  m : list (list PetscInt);
  UNLocal : PetscInt;
  pNLocal : PetscInt;
  UPack : option DM;
  comm : option Z;
  mpiSize : Z;
  mpiRank : Z
}.

(** The mesh, and the objects [DMDestroy] has destroyed so far, oldest
    first. *)
Record State : Type := {
  self : MeshBase;
  destroyed : list DM
}.

Inductive Result : Type :=
| Ok (s : State)
| Raise (ierr : PetscErrorCode) (s : State)
| Crash (u : Fault) (s : State).

Definition final (r : Result) : State :=
  match r with
  | Ok s | Raise _ s | Crash _ s => s
  end.

Definition bind (r : Result) (k : State -> Result) : Result :=
  match r with
  | Ok s => k s
  | _ => r
  end.

Definition on_self (f : MeshBase -> MeshBase) (s : State) : State :=
  {| self := f (self s); destroyed := destroyed s |}.

(** [da[f] = x], for [f] in range. *)
Fixpoint list_set {A : Type} (f : nat) (x : A) (l : list A) : list A :=
  match l, f with
  | [], _ => []
  | _ :: l', O => x :: l'
  | y :: l', S f' => y :: list_set f' x l'
  end.

Definition set_da (f : nat) (x : option DM) (b : MeshBase) : MeshBase :=
  {| dim := dim b; min := min b; max := max b; n := n b;
     periodic := periodic b; coord := coord b; dL := dL b;
     UN := UN b; pN := pN b; info := info b;
     da := list_set f x (da b);
     nProc := nProc b; bg := bg b; ed := ed b; m := m b;
     UNLocal := UNLocal b; pNLocal := pNLocal b;
     UPack := UPack b; comm := comm b;
     mpiSize := mpiSize b; mpiRank := mpiRank b |}.

Definition set_UPack (x : option DM) (b : MeshBase) : MeshBase :=
  {| dim := dim b; min := min b; max := max b; n := n b;
     periodic := periodic b; coord := coord b; dL := dL b;
     UN := UN b; pN := pN b; info := info b;
     da := da b;
     nProc := nProc b; bg := bg b; ed := ed b; m := m b;
     UNLocal := UNLocal b; pNLocal := pNLocal b;
     UPack := x; comm := comm b;
     mpiSize := mpiSize b; mpiRank := mpiRank b |}.

(** [DMDestroy(&h)] on the object [h] refers to: a null handle is left
    alone with code 0; otherwise the object is destroyed and the handle
    nulled by [null], unless the routine fails. *)
Definition DMDestroy (h : option DM) (null : MeshBase -> MeshBase)
    (s : State) : Result :=
  match h with
  | None => Ok s
  | Some dm =>
      if DMDestroy_ext dm =? 0
      then Ok {| self := null (self s); destroyed := destroyed s ++ [dm] |}
      else Raise (DMDestroy_ext dm) s
  end.

(** [ierr = DMDestroy(&da[f]); CHKERRQ(ierr);]. *)
Definition DMDestroy_da (f : nat) (s : State) : Result :=
  match nth_error (da (self s)) f with
  | None => Crash OutOfBounds s
  | Some h => DMDestroy h (set_da f None) s
  end.

(** [ierr = DMDestroy(&UPack); CHKERRQ(ierr);]. *)
Definition DMDestroy_UPack (s : State) : Result :=
  DMDestroy (UPack (self s)) (set_UPack None) s.

(** [for(int f=...; f<dim; ++f) body(f)], the indices still to visit in
    [fs]. *)
Fixpoint for_each (fs : list nat) (body : nat -> State -> Result)
    (s : State) : Result :=
  match fs with
  | [] => Ok s
  | f :: fs' => bind (body f s) (for_each fs' body)
  end.

(** [for(int f=0; f<dim; ++f) DMDestroy(&da[f])], with [dim] as it is when
    the loop is reached. *)
Definition destroy_velocity_DMs (s : State) : Result :=
  for_each (seq 0 (Z.to_nat (dim (self s)))) DMDestroy_da s.

(** The assignments of [destroy] before its loop. *)
Definition clear_description (b : MeshBase) : MeshBase :=
  {| dim := -1; min := []; max := []; n := [];
     periodic := []; coord := []; dL := [];
     UN := 0; pN := 0; info := EmptyString;
     da := da b;
     nProc := nProc b; bg := bg b; ed := ed b; m := m b;
     UNLocal := UNLocal b; pNLocal := pNLocal b;
     UPack := UPack b; comm := comm b;
     mpiSize := mpiSize b; mpiRank := mpiRank b |}.

(** The assignments of [destroy] between [da[4]] and [UPack]. *)
Definition clear_partition (b : MeshBase) : MeshBase :=
  {| dim := dim b; min := min b; max := max b; n := n b;
     periodic := periodic b; coord := coord b; dL := dL b;
     UN := UN b; pN := pN b; info := info b;
     da := da b;
     nProc := []; bg := []; ed := []; m := [];
     UNLocal := 0; pNLocal := 0;
     UPack := UPack b; comm := comm b;
     mpiSize := mpiSize b; mpiRank := mpiRank b |}.

(** [comm = MPI_COMM_NULL]. *)
Definition clear_comm (b : MeshBase) : MeshBase :=
  {| dim := dim b; min := min b; max := max b; n := n b;
     periodic := periodic b; coord := coord b; dL := dL b;
     UN := UN b; pN := pN b; info := info b;
     da := da b;
     nProc := nProc b; bg := bg b; ed := ed b; m := m b;
     UNLocal := UNLocal b; pNLocal := pNLocal b;
     UPack := UPack b; comm := None;
     mpiSize := mpiSize b; mpiRank := mpiRank b |}.

(** [mpiSize = mpiRank = 0]. *)
Definition clear_ranks (b : MeshBase) : MeshBase :=
  {| dim := dim b; min := min b; max := max b; n := n b;
     periodic := periodic b; coord := coord b; dL := dL b;
     UN := UN b; pN := pN b; info := info b;
     da := da b;
     nProc := nProc b; bg := bg b; ed := ed b; m := m b;
     UNLocal := UNLocal b; pNLocal := pNLocal b;
     UPack := UPack b; comm := comm b;
     mpiSize := 0; mpiRank := 0 |}.

(** [MeshBase::destroy]. *)
Definition destroy (s : State) : Result :=
  let s := on_self clear_description s in
  bind (destroy_velocity_DMs s) (fun s =>
  bind (DMDestroy_da 3 s) (fun s =>
  bind (DMDestroy_da 4 s) (fun s =>
  let s := on_self clear_partition s in
  bind (DMDestroy_UPack s) (fun s =>
  let s := on_self clear_comm s in
  let s := on_self clear_ranks s in
  Ok s)))).

(** [MeshBase::~MeshBase], given what [PetscFinalized] answers: its error
    code and its flag.  [CHKERRV] returns from the destructor on an error
    code. *)
Definition destructor (PetscFinalized : PetscErrorCode * bool) (s : State)
    : Result :=
  let (ierr, finalized) := PetscFinalized in
  if negb (ierr =? 0) then Raise ierr s
  else if finalized then Ok s
  else
    bind (destroy_velocity_DMs s) (fun s =>
    bind (DMDestroy_da 3 s) (fun s =>
    bind (DMDestroy_da 4 s) (fun s =>
    bind (DMDestroy_UPack s) (fun s =>
    let s := on_self clear_comm s in
    Ok s)))).

(** The handles of [l] that are not null, in order. *)
Definition objects (l : list (option DM)) : list DM :=
  flat_map (fun h => match h with Some dm => [dm] | None => [] end) l.
End MeshBase.
End Mesh.

Section MeshStates.
Context {F : Scalar} {E : External F}.

(** The mesh [destroy] returns normally with. *)
Definition destroyed_mesh (b : Mesh.MeshBase) : Mesh.MeshBase :=
  {| Mesh.dim := -1; Mesh.min := []; Mesh.max := []; Mesh.n := [];
     Mesh.periodic := []; Mesh.coord := []; Mesh.dL := [];
     Mesh.UN := 0; Mesh.pN := 0; Mesh.info := EmptyString;
     Mesh.da := Mesh.list_set 4 None (Mesh.list_set 3 None (Mesh.da b));
     Mesh.nProc := []; Mesh.bg := []; Mesh.ed := []; Mesh.m := [];
     Mesh.UNLocal := 0; Mesh.pNLocal := 0;
     Mesh.UPack := None; Mesh.comm := None;
     Mesh.mpiSize := 0; Mesh.mpiRank := 0 |}.

(** [da[i..i+k-1]] nulled, in this order. *)
Definition null_range (i k : nat) (b : Mesh.MeshBase) : Mesh.MeshBase :=
  fold_left (fun b f => Mesh.set_da f None b) (seq i k) b.

End MeshStates.

(* ================================================================== *)
(** * Concrete instances for teardown, the product and the mesh *)

Module DemoPetsc.
Import Demo.

(** No destroy routine fails, and the summary viewer opens. *)
#[export] Instance teardownZ : Teardown scalarZ externalZ := {|
  DMDestroy_ext := fun _ => 0;
  VecDestroy_ext := fun _ => 0;
  MatDestroy_ext := fun _ => 0;
  KSPDestroy_ext := fun _ => 0;
  PetscViewer := string;
  PetscViewerASCIIOpen_ext := fun name => (0, name);
  PetscLogView_ext := fun _ => 0;
  PetscViewerDestroy_ext := fun _ => 0
|}.

#[export] Instance eventLogZ : EventLog := {|
  PetscLogEvent := string;
  PetscLogEventRegister_ext := fun name => (0, name);
  PetscLogEventBegin_ext := fun _ => 0;
  PetscLogEventEnd_ext := fun _ => 0
|}.

#[export] Instance ringZ : ScalarRing scalarZ := {| scalar_ring := Zth |}.

(** The solver of [Demo] once the Poisson system [3 lambda = 23 - 5] has
    been solved exactly. *)
Definition solved : @Process scalarZ externalZ :=
  {| this := set_vec V_lambda [6] (solver 2 2); trace := [] |}.

(** The solver of [Demo] with [MHat] null: [generateRHS1] fails. *)
Definition without_MHat : @Process scalarZ externalZ :=
  {| this := set_null (HVec V_MHat) (solver 2 2); trace := [] |}.

(** A two-dimensional mesh: [da[0]], [da[1]], [da[3]], [da[4]] and [UPack]
    are set, [da[2]] is null. *)
Definition mesh2d : @Mesh.State scalarZ externalZ :=
  {| Mesh.self :=
       {| Mesh.dim := 2;
          Mesh.min := [0; 0]; Mesh.max := [1; 1];
          Mesh.n := [[4; 4]; [4; 4]];
          Mesh.periodic := [[false; false]; [false; false]];
          Mesh.coord := []; Mesh.dL := [];
          Mesh.UN := 24; Mesh.pN := 16;
          Mesh.info := "mesh";
          Mesh.da := [Some tt; Some tt; None; Some tt; Some tt];
          Mesh.nProc := [1; 1]; Mesh.bg := []; Mesh.ed := []; Mesh.m := [];
          Mesh.UNLocal := 24; Mesh.pNLocal := 16;
          Mesh.UPack := Some tt;
          Mesh.comm := Some 1;
          Mesh.mpiSize := 1; Mesh.mpiRank := 0 |};
     Mesh.destroyed := [] |}.
End DemoPetsc.


(* ================================================================== *)
(** * Properties of the integer helpers *)

Lemma PetscInt_range_spec (z : Z) :
  PetscInt_range z = true <-> PETSC_MIN_INT <= z <= PETSC_MAX_INT.
Proof.
  unfold PetscInt_range.
  rewrite andb_true_iff, !Z.leb_le. tauto.
Qed.

Lemma PetscInt_incr_counter (x : PetscInt) :
  0 <= x -> x + 1 <= PETSC_MAX_INT -> PetscInt_incr x = Val (x + 1).
Proof.
  intros Hlo Hhi. unfold PetscInt_incr, PetscInt_add.
  replace (PetscInt_range (x + 1)) with true; [reflexivity|].
  symmetry. apply PetscInt_range_spec.
  unfold PETSC_MIN_INT, PETSC_MAX_INT in *. lia.
Qed.

Lemma skipn_nth_error_cons {A : Type} (l : list A) :
  forall i c, nth_error l i = Some c -> skipn i l = c :: skipn (S i) l.
Proof.
  induction l as [|a l IH]; intros [|i] c Hnth; simpl in Hnth; try discriminate.
  - now inversion Hnth.
  - change (skipn (S i) (a :: l)) with (skipn i l).
    now rewrite (IH i c Hnth).
Qed.

Lemma count_local_remote (rowStart rowEnd : PetscInt) (cols : list PetscInt) :
  (count_local rowStart rowEnd cols + count_remote rowStart rowEnd cols
   = List.length cols)%nat.
Proof.
  unfold count_local, count_remote.
  induction cols as [|c cols IH]; simpl; [reflexivity|].
  destruct (in_row_range rowStart rowEnd c); simpl; lia.
Qed.

(** The loop invariant: started at index [i] with counters [d] and [o], the
    loop adds to them the two counts over the rest of the array. *)
Lemma countNumNonZeros_for_counts (cols : list PetscInt)
    (rowStart rowEnd : PetscInt) :
  forall remaining i d o,
    (i + remaining = List.length cols)%nat ->
    0 <= d -> 0 <= o ->
    d + o + Z.of_nat remaining <= PETSC_MAX_INT ->
    countNumNonZeros_for cols rowStart rowEnd i remaining d o
    = Val (d + Z.of_nat (count_local rowStart rowEnd (skipn i cols)),
           o + Z.of_nat (count_remote rowStart rowEnd (skipn i cols))).
Proof.
  induction remaining as [|r IH]; intros i d o Hlen Hd Ho Hmax.
  - simpl. rewrite skipn_all2 by lia.
    unfold count_local, count_remote. simpl. now rewrite !Z.add_0_r.
  - simpl.
    destruct (nth_error cols i) as [c|] eqn:Hnth.
    2:{ apply nth_error_None in Hnth. lia. }
    rewrite (skipn_nth_error_cons cols i c Hnth).
    unfold count_local, count_remote. simpl filter.
    rewrite Z.geb_leb. fold (in_row_range rowStart rowEnd c).
    destruct (in_row_range rowStart rowEnd c); simpl negb; cbv iota.
    + rewrite PetscInt_incr_counter by lia. simpl eval_bind.
      rewrite IH by lia.
      unfold count_local, count_remote. simpl List.length.
      f_equal. f_equal. lia.
    + rewrite PetscInt_incr_counter by lia. simpl eval_bind.
      rewrite IH by lia.
      unfold count_local, count_remote. simpl List.length.
      f_equal. f_equal. lia.
Qed.

(** Whatever the size of the array, counters the loop returns are the ones
    it was started with plus the two counts over the rest of the array. *)
Lemma countNumNonZeros_for_returns (cols : list PetscInt)
    (rowStart rowEnd : PetscInt) :
  forall remaining i d o d' o',
    (i + remaining = List.length cols)%nat ->
    countNumNonZeros_for cols rowStart rowEnd i remaining d o = Val (d', o') ->
    d' = d + Z.of_nat (count_local rowStart rowEnd (skipn i cols))
    /\ o' = o + Z.of_nat (count_remote rowStart rowEnd (skipn i cols)).
Proof.
  induction remaining as [|r IH]; intros i d o d' o' Hlen Hrun.
  - simpl in Hrun. inversion Hrun; subst.
    rewrite skipn_all2 by lia.
    unfold count_local, count_remote. simpl. lia.
  - simpl in Hrun.
    destruct (nth_error cols i) as [c|] eqn:Hnth; [|discriminate].
    rewrite (skipn_nth_error_cons cols i c Hnth).
    specialize (IH (S i)).
    unfold count_local, count_remote in *.
    set (rest := skipn (S i) cols) in *.
    rewrite Z.geb_leb in Hrun. fold (in_row_range rowStart rowEnd c) in Hrun.
    unfold PetscInt_incr, PetscInt_add in Hrun.
    cbn [filter].
    destruct (in_row_range rowStart rowEnd c); cbn [negb List.length].
    + destruct (PetscInt_range (d + 1)); [|discriminate].
      cbn [eval_bind] in Hrun. apply IH in Hrun; lia.
    + destruct (PetscInt_range (o + 1)); [|discriminate].
      cbn [eval_bind] in Hrun. apply IH in Hrun; lia.
Qed.

(** C6.  For an array [cols] of [numCols] column indices and any row range,
    the [d_nnz] that [countNumNonZeros] returns is exactly the number of
    entries with [rowStart <= cols[i] < rowEnd] and the [o_nnz] exactly the
    number of the other entries, so the two add up to [numCols]; neither
    depends on what [d_nnz] and [o_nnz] held before the call.  The function
    does return them when [numCols] is a count a [PetscInt] can hold. *)
Theorem countNumNonZeros_exact_partition (cols : list PetscInt) (numCols : nat)
    (rowStart rowEnd : PetscInt) (d_nnz o_nnz : PetscInt) :
  List.length cols = numCols ->
  (forall d o : PetscInt,
     countNumNonZeros cols numCols rowStart rowEnd d_nnz o_nnz = Val (d, o) ->
     d = Z.of_nat (count_local rowStart rowEnd cols)
     /\ o = Z.of_nat (count_remote rowStart rowEnd cols)
     /\ d + o = Z.of_nat numCols)
  /\ (Z.of_nat numCols <= PETSC_MAX_INT ->
      countNumNonZeros cols numCols rowStart rowEnd d_nnz o_nnz
      = Val (Z.of_nat (count_local rowStart rowEnd cols),
             Z.of_nat (count_remote rowStart rowEnd cols))).
Proof.
  intros Hlen. split.
  - intros d o Hrun. unfold countNumNonZeros in Hrun.
    apply countNumNonZeros_for_returns in Hrun; [|simpl; lia].
    simpl skipn in Hrun. destruct Hrun as [Hd Ho].
    pose proof (count_local_remote rowStart rowEnd cols). lia.
  - intros Hmax. unfold countNumNonZeros.
    rewrite countNumNonZeros_for_counts by (simpl; lia).
    reflexivity.
Qed.

Lemma countNumNonZeros_exact_partition_witness :
  countNumNonZeros [1; 5; 9; 3; 12] 5 3 9 77 88 = Val (2, 3).
Proof.
  destruct (countNumNonZeros_exact_partition [1; 5; 9; 3; 12] 5 3 9 77 88
              eq_refl) as [_ Hrun].
  apply Hrun. unfold PETSC_MAX_INT. lia.
Defined.

Section Counters.
Context {F : Scalar} {E : External F}.

(** C8.  With a positive save interval and a non-negative step counter,
    [savePoint] answers, and the answer is [PETSC_TRUE] exactly when the step
    counter is a multiple of [nsave]; it is [PETSC_FALSE] at every other
    step. *)
Theorem savePoint_multiples_of_nsave (s : NavierStokesSolver) :
  0 < nsave (simParams s) ->
  0 <= timeStep s ->
  (savePoint s = Val PETSC_TRUE
   <-> exists j : Z, timeStep s = j * nsave (simParams s))
  /\ (savePoint s = Val PETSC_FALSE
      <-> ~ exists j : Z, timeStep s = j * nsave (simParams s)).
Proof.
  intros Hm Ht. unfold savePoint, PetscInt_rem.
  destruct (Z.eqb_spec (nsave (simParams s)) 0) as [H0|_]; [lia|].
  replace (nsave (simParams s) =? -1) with false
    by (symmetry; apply Z.eqb_neq; lia).
  rewrite andb_false_r. simpl eval_bind.
  assert (Hdiv : Z.rem (timeStep s) (nsave (simParams s)) = 0
                 <-> exists j : Z, timeStep s = j * nsave (simParams s)).
  { rewrite Z.rem_divide by lia. reflexivity. }
  destruct (Z.eqb_spec (Z.rem (timeStep s) (nsave (simParams s))) 0)
    as [Hr|Hr]; simpl PetscBool_of.
  - split; split; intros H; try reflexivity.
    + now apply Hdiv.
    + discriminate.
    + exfalso. apply H. now apply Hdiv.
  - split; split; intros H; try reflexivity.
    + discriminate.
    + exfalso. apply Hr. now apply Hdiv.
    + intros Hj. apply Hr. now apply Hdiv.
Qed.

(** C10.  [savePoint] divides by [nsave] unguarded: it has a value whenever
    [nsave] is positive, it is a division by zero when [nsave] is zero, and
    so it has a value only if [nsave] is not zero. *)
Theorem savePoint_needs_nonzero_nsave (s : NavierStokesSolver) :
  (0 < nsave (simParams s) -> exists b : PetscBool, savePoint s = Val b)
  /\ (nsave (simParams s) = 0 -> savePoint s = Trap DivisionByZero)
  /\ ((exists b : PetscBool, savePoint s = Val b) -> nsave (simParams s) <> 0).
Proof.
  unfold savePoint, PetscInt_rem. repeat split.
  - intros Hm.
    destruct (Z.eqb_spec (nsave (simParams s)) 0) as [H0|_]; [lia|].
    replace (nsave (simParams s) =? -1) with false
      by (symmetry; apply Z.eqb_neq; lia).
    rewrite andb_false_r. simpl. eexists. reflexivity.
  - intros H0. rewrite H0. reflexivity.
  - intros [b Hb] H0. rewrite H0 in Hb. simpl in Hb. discriminate.
Qed.
End Counters.

(* ================================================================== *)
(** * Reasoning about member functions *)

Section Rules.
Context {F : Scalar} {E : External F} {Rep : Reporting F}.
Local Open Scope petsc_scope.

Lemma bind_Ok_inv {A B : Type} (m : M A) (k : A -> M B) (p p' : Process) (b : B) :
  bind m k p = Ok b p' ->
  exists a p1, m p = Ok a p1 /\ k a p1 = Ok b p'.
Proof.
  unfold bind. destruct (m p) as [a p1| | |]; try discriminate.
  intros Hk. now exists a, p1.
Qed.

Lemma keeps_bind {A B X : Type} (f : Process -> X)
    (m : M A) (k : A -> M B) :
  keeps f m -> (forall a, keeps f (k a)) -> keeps f (bind m k).
Proof.
  intros Hm Hk p. specialize (Hm p). unfold bind.
  destruct (m p) as [a p1| | |]; simpl in *; try assumption.
  now rewrite (Hk a p1).
Qed.

Lemma keeps_ret {A X : Type} (f : Process -> X) (a : A) :
  keeps f (ret a).
Proof. intros p. reflexivity. Qed.

Lemma keeps_raise {A X : Type} (f : Process -> X) (ierr : PetscErrorCode) :
  keeps f (@raise _ _ A ierr).
Proof. intros p. reflexivity. Qed.

Lemma keeps_exit {A X : Type} (f : Process -> X) (status : Z) :
  keeps f (@exit _ _ A status).
Proof. intros p. reflexivity. Qed.

Lemma keeps_crash {A X : Type} (f : Process -> X) (u : Fault) :
  keeps f (fun p => @Crash _ _ A u p).
Proof. intros p. reflexivity. Qed.

Lemma keeps_gets {A X : Type} (f : Process -> X)
    (g : NavierStokesSolver -> A) :
  keeps f (gets g).
Proof. intros p. reflexivity. Qed.

Lemma keeps_history {X : Type} (f : Process -> X) : keeps f history.
Proof. intros p. reflexivity. Qed.

Lemma keeps_emit {X : Type} (f : Process -> X) (e : Event) :
  (forall p, f {| this := this p; trace := trace p ++ [e] |} = f p) ->
  keeps f (emit e).
Proof. intros He p. simpl. apply He. Qed.

Lemma keeps_chk {X : Type} (f : Process -> X) (ierr : PetscErrorCode) :
  keeps f (chk ierr).
Proof. intros p. unfold chk. destruct (ierr =? 0); reflexivity. Qed.

Lemma keeps_modify {X : Type} (f : Process -> X)
    (g : NavierStokesSolver -> NavierStokesSolver) :
  (forall p, f {| this := g (this p); trace := trace p |} = f p) ->
  keeps f (modify g).
Proof. intros Hg p. simpl. apply Hg. Qed.

Lemma solutions_app (t u : list Event) :
  solutions (t ++ u) = solutions t ++ solutions u.
Proof.
  induction t as [|e t IH]; simpl; [reflexivity|].
  destruct e; simpl; now rewrite IH.
Qed.

Lemma entered_app (t u : list Event) :
  entered (t ++ u) = entered t ++ entered u.
Proof.
  induction t as [|e t IH]; simpl; [reflexivity|].
  destruct e; simpl; now rewrite IH.
Qed.

Lemma enters_bind {A B : Type} (m : M A) (k : A -> M B) (L1 L2 : list Method) :
  enters m L1 -> (forall a, enters (k a) L2) -> enters (bind m k) (L1 ++ L2).
Proof.
  intros Hm Hk p. specialize (Hm p). unfold bind.
  destruct (m p) as [a p1|ierr p1|st p1|u p1].
  - specialize (Hk a p1).
    destruct (k a p1) as [b p2|ierr p2|st p2|u p2].
    + rewrite Hk, Hm. now rewrite app_assoc.
    + destruct Hk as (done & rest & -> & Hk).
      exists (L1 ++ done), rest. simpl in *.
      rewrite Hk, Hm. now rewrite !app_assoc.
    + destruct Hk as (done & rest & -> & Hk).
      exists (L1 ++ done), rest. simpl in *.
      rewrite Hk, Hm. now rewrite !app_assoc.
    + destruct Hk as (done & rest & -> & Hk).
      exists (L1 ++ done), rest. simpl in *.
      rewrite Hk, Hm. now rewrite !app_assoc.
  - destruct Hm as (done & rest & -> & Hm).
    exists done, (rest ++ L2). now rewrite app_assoc.
  - destruct Hm as (done & rest & -> & Hm).
    exists done, (rest ++ L2). now rewrite app_assoc.
  - destruct Hm as (done & rest & -> & Hm).
    exists done, (rest ++ L2). now rewrite app_assoc.
Qed.

Lemma enters_eq {A : Type} (m : M A) (L L' : list Method) :
  enters m L -> L = L' -> enters m L'.
Proof. now intros H <-. Qed.

Lemma enters_ret {A : Type} (a : A) : enters (ret a) [].
Proof. intros p. simpl. now rewrite app_nil_r. Qed.

Lemma enters_gets {A : Type} (g : NavierStokesSolver -> A) : enters (gets g) [].
Proof. intros p. simpl. now rewrite app_nil_r. Qed.

Lemma enters_history : enters history [].
Proof. intros p. simpl. now rewrite app_nil_r. Qed.

Lemma enters_modify (g : NavierStokesSolver -> NavierStokesSolver) :
  enters (modify g) [].
Proof. intros p. simpl. now rewrite app_nil_r. Qed.

Lemma enters_raise {A : Type} (ierr : PetscErrorCode) (L : list Method) :
  enters (@raise _ _ A ierr) L.
Proof. intros p. exists [], L. simpl. now rewrite app_nil_r. Qed.

Lemma enters_exit {A : Type} (status : Z) (L : list Method) :
  enters (@exit _ _ A status) L.
Proof. intros p. exists [], L. simpl. now rewrite app_nil_r. Qed.

Lemma enters_crash {A : Type} (u : Fault) (L : list Method) :
  enters (fun p => @Crash _ _ A u p) L.
Proof. intros p. exists [], L. simpl. now rewrite app_nil_r. Qed.

Lemma enters_chk (ierr : PetscErrorCode) : enters (chk ierr) [].
Proof.
  unfold chk. destruct (ierr =? 0); [apply enters_ret | apply enters_raise].
Qed.

Lemma enters_enter (m : Method) : enters (enter m) [m].
Proof. intros p. simpl. now rewrite entered_app. Qed.

Lemma enters_emit_other (e : Event) :
  entered [e] = [] -> enters (emit e) [].
Proof. intros He p. simpl. now rewrite entered_app, He. Qed.
End Rules.

(** Unfolds the member functions of a step and the PETSc calls down to the
    state operations the rules above speak about. *)
Ltac unfold_calls :=
  cbv beta zeta delta
    [calculateExplicitTerms updateBoundaryGhosts refresh_local generateBC1
     generateR2 generateRHS1 generateRHS2 solveIntermediateVelocity
     solvePoissonSystem projectionStep
     VecWAXPY VecPointwiseMult VecScale MatMult MatMultAdd KSPSolve
     KSPGetConvergedReason PetscLogStagePush PetscLogStagePop PetscPrintf
     enter get_vec get_mat get_ksp].

Ltac keeps_side :=
  intros;
  first [ reflexivity
        | simpl; rewrite solutions_app; simpl; rewrite app_nil_r; reflexivity ].

Ltac keeps_auto :=
  unfold_calls;
  repeat first
    [ apply keeps_ret | apply keeps_raise | apply keeps_exit
    | apply keeps_crash | apply keeps_gets | apply keeps_chk
    | apply keeps_history
    | apply keeps_emit; keeps_side
    | apply keeps_modify; keeps_side
    | apply keeps_bind; [ | intros ]
    | match goal with
      | |- keeps _ (match ?x with _ => _ end) => destruct x
      end ].

Ltac enters_auto :=
  unfold_calls;
  repeat first
    [ apply enters_ret | apply enters_gets | apply enters_modify
    | apply enters_history
    | apply enters_chk | apply enters_enter
    | apply enters_emit_other; reflexivity
    | apply enters_raise | apply enters_exit | apply enters_crash
    | eapply enters_bind; [ | intros ]
    | match goal with
      | |- enters (match ?x with _ => _ end) _ => destruct x
      end ].

Section StepFacts.
Context {F : Scalar} {E : External F} {Rep : Reporting F}
  {I : InlineSources F E}.
Local Open Scope petsc_scope.

Lemma enters_calculateExplicitTerms :
  enters calculateExplicitTerms [m_calculateExplicitTerms].
Proof. eapply enters_eq; [enters_auto | reflexivity]. Qed.

Lemma enters_updateBoundaryGhosts :
  enters updateBoundaryGhosts [m_updateBoundaryGhosts].
Proof. eapply enters_eq; [enters_auto | reflexivity]. Qed.

Lemma enters_generateBC1 : enters generateBC1 [m_generateBC1].
Proof. eapply enters_eq; [enters_auto | reflexivity]. Qed.

Lemma enters_generateRHS1 : enters generateRHS1 [m_generateRHS1].
Proof. eapply enters_eq; [enters_auto | reflexivity]. Qed.

Lemma enters_solveIntermediateVelocity :
  enters solveIntermediateVelocity [m_solveIntermediateVelocity].
Proof. eapply enters_eq; [enters_auto | reflexivity]. Qed.

Lemma enters_generateR2 : enters generateR2 [m_generateR2].
Proof. eapply enters_eq; [enters_auto | reflexivity]. Qed.

Lemma enters_generateRHS2 : enters generateRHS2 [m_generateRHS2].
Proof. eapply enters_eq; [enters_auto | reflexivity]. Qed.

Lemma enters_solvePoissonSystem :
  enters solvePoissonSystem [m_solvePoissonSystem].
Proof. eapply enters_eq; [enters_auto | reflexivity]. Qed.

Lemma enters_projectionStep : enters projectionStep [m_projectionStep].
Proof. eapply enters_eq; [enters_auto | reflexivity]. Qed.
End StepFacts.

Section StepTime.
Context {F : Scalar} {E : External F} {Rep : Reporting F}
  {I : InlineSources F E}.
Local Open Scope petsc_scope.

Lemma enters_stepTime : enters stepTime step_sequence.
Proof.
  unfold stepTime, PetscLogStagePush, PetscLogStagePop, timeStep_incr.
  eapply enters_eq.
  - repeat first
      [ apply enters_calculateExplicitTerms | apply enters_updateBoundaryGhosts
      | apply enters_generateBC1 | apply enters_generateRHS1
      | apply enters_solveIntermediateVelocity | apply enters_generateR2
      | apply enters_generateRHS2 | apply enters_solvePoissonSystem
      | apply enters_projectionStep
      | apply enters_ret | apply enters_gets | apply enters_modify
      | apply enters_history | apply enters_chk
      | apply enters_emit_other; reflexivity | apply enters_crash
      | eapply enters_bind; [ | intros ]
      | match goal with
        | |- enters (match ?x with _ => _ end) _ => destruct x
        end ].
  - reflexivity.
Qed.

Lemma advances_after_keeps {A B : Type} (m : M A) (k : A -> M B) (n : Z) :
  keeps (fun p => timeStep (this p)) m ->
  (forall a, advances (k a) n) -> advances (bind m k) n.
Proof.
  intros Hm Hk p. specialize (Hm p). unfold bind.
  destruct (m p) as [a p1| | |]; simpl in *; try assumption.
  specialize (Hk a p1). rewrite <- Hm.
  destruct (k a p1); assumption.
Qed.

Lemma advances_timeStep_incr : advances (timeStep_incr ;; ret tt) 1.
Proof.
  intros p. unfold timeStep_incr, bind, gets, PetscInt_incr, PetscInt_add.
  destruct (PetscInt_range (timeStep (this p) + 1)); reflexivity.
Qed.

Lemma advances_stepTime : advances stepTime 1.
Proof.
  unfold stepTime.
  repeat (apply advances_after_keeps; [solve [keeps_auto] | intros _]).
  apply advances_timeStep_incr.
Qed.

Lemma keeps_simParams_stepTime :
  keeps (fun p => simParams (this p)) stepTime.
Proof. unfold stepTime, timeStep_incr. keeps_auto. Qed.

Lemma stepTimes_counter (n : nat) :
  forall p p',
    stepTimes n p = Ok tt p' ->
    timeStep (this p') = timeStep (this p) + Z.of_nat n
    /\ simParams (this p') = simParams (this p).
Proof.
  induction n as [|n IH]; intros p p' Hrun.
  - simpl in Hrun. inversion Hrun; subst. split; [lia | reflexivity].
  - change (stepTimes (S n)) with (stepTime ;; stepTimes n) in Hrun.
    apply bind_Ok_inv in Hrun. destruct Hrun as ([] & p1 & Hstep & Hrest).
    destruct (IH p1 p' Hrest) as [Ht Hs].
    pose proof (advances_stepTime p) as Hadv.
    pose proof (keeps_simParams_stepTime p) as Hkeep.
    rewrite Hstep in Hadv, Hkeep. simpl in Hkeep.
    split; [lia | congruence].
Qed.

(** C1, amended.  A call of [stepTime] that returns normally has entered
    exactly the nine sub-steps, in the order of the method, and has added
    exactly one to [timeStep]; a call that ends any other way (an error code,
    or the exit after a diverged solve) has entered only the first few of
    them and has left [timeStep] as it was. *)
Theorem stepTime_runs_sequence (p : Process) :
  (forall p',
     stepTime p = Ok tt p' ->
     entered (trace p') = entered (trace p) ++ step_sequence
     /\ timeStep (this p') = timeStep (this p) + 1)
  /\ ((forall p', stepTime p <> Ok tt p') ->
      (exists done rest,
         step_sequence = done ++ rest
         /\ entered (trace (final (stepTime p))) = entered (trace p) ++ done)
      /\ timeStep (this (final (stepTime p))) = timeStep (this p)).
Proof.
  pose proof (enters_stepTime p) as Hent.
  pose proof (advances_stepTime p) as Hadv.
  split.
  - intros p' Hrun. rewrite Hrun in Hent, Hadv. now split.
  - intros Hnot.
    destruct (stepTime p) as [[] p1| | |]; simpl in *.
    + exfalso. now apply (Hnot p1).
    + now split.
    + now split.
    + now split.
Qed.

(** C9.  Each of the eight sub-steps of [stepTime] other than the projection
    leaves the flux vector [q] as it found it, however the sub-step ends; so
    do the profiler calls and the increment of the step counter, the only
    other statements of [stepTime]. *)
Theorem only_projectionStep_writes_q :
  keeps (fun p => vecs (this p) V_q) calculateExplicitTerms
  /\ keeps (fun p => vecs (this p) V_q) updateBoundaryGhosts
  /\ keeps (fun p => vecs (this p) V_q) generateBC1
  /\ keeps (fun p => vecs (this p) V_q) generateRHS1
  /\ keeps (fun p => vecs (this p) V_q) solveIntermediateVelocity
  /\ keeps (fun p => vecs (this p) V_q) generateR2
  /\ keeps (fun p => vecs (this p) V_q) generateRHS2
  /\ keeps (fun p => vecs (this p) V_q) solvePoissonSystem
  /\ (forall st, keeps (fun p => vecs (this p) V_q) (PetscLogStagePush st))
  /\ keeps (fun p => vecs (this p) V_q) PetscLogStagePop
  /\ keeps (fun p => vecs (this p) V_q) timeStep_incr.
Proof.
  repeat apply conj; try solve [keeps_auto].
  intros st. keeps_auto.
Qed.

(** C7, amended.  A solver built with [startStep = s0] and [nt = k] starts
    with the step counter at [s0]; after [n] completed calls of [stepTime]
    the counter is [s0 + n].  Provided [s0 + k] fits a [PetscInt], [finished]
    answers, and its answer is [PETSC_TRUE] exactly when [k <= n], that is
    when the counter has reached [s0 + k], and [PETSC_FALSE] before.
    Without that proviso the sum [startStep + nt] overflows and [finished]
    has no defined answer. *)
Theorem finished_after_nt_steps (directory : string)
    (cartesianMesh : CartesianMesh) (flowDescription : FlowDescription)
    (simulationParameters : SimulationParameters) (lambda0 : option Vec)
    (p p' : Process) (n : nat) :
  simParams (this p) = simulationParameters ->
  timeStep (this p)
  = timeStep (NavierStokesSolver_new directory cartesianMesh flowDescription
                simulationParameters lambda0) ->
  stepTimes n p = Ok tt p' ->
  timeStep (this p') = startStep simulationParameters + Z.of_nat n
  /\ (forall b : PetscBool,
        finished (this p') = Val b ->
        (b = PETSC_TRUE <-> nt simulationParameters <= Z.of_nat n)
        /\ (b = PETSC_TRUE
            <-> startStep simulationParameters + nt simulationParameters
                <= timeStep (this p'))
        /\ (b = PETSC_FALSE <-> Z.of_nat n < nt simulationParameters))
  /\ (PetscInt_range (startStep simulationParameters
                      + nt simulationParameters) = true ->
      finished (this p')
      = Val (PetscBool_of (nt simulationParameters <=? Z.of_nat n))).
Proof.
  intros Hparams Hstart Hrun. simpl in Hstart.
  destruct (stepTimes_counter n p p' Hrun) as [Ht Hs].
  rewrite Hstart in Ht. rewrite Hparams in Hs.
  split; [assumption|].
  assert (Hleb : (startStep simulationParameters + nt simulationParameters
                  <=? startStep simulationParameters + Z.of_nat n)
                 = (nt simulationParameters <=? Z.of_nat n)).
  { destruct (Z.leb_spec (nt simulationParameters) (Z.of_nat n));
      [apply Z.leb_le | apply Z.leb_gt]; lia. }
  unfold finished, PetscInt_add. rewrite Hs, Ht.
  destruct (PetscInt_range
              (startStep simulationParameters + nt simulationParameters));
    simpl eval_bind.
  - rewrite Z.geb_leb, Hleb. split; [|reflexivity].
    intros b Hb. inversion Hb; subst b; clear Hb.
    destruct (Z.leb_spec (nt simulationParameters) (Z.of_nat n)); simpl;
      repeat split; intros; try reflexivity; try discriminate; lia.
  - split; [intros b Hb | intros Hrange]; discriminate.
Qed.
End StepTime.

(* ================================================================== *)
(** * Vector arithmetic *)

Section VectorFacts.
Context {F : Scalar}.

Lemma zip_with_length (f : PetscScalar -> PetscScalar -> PetscScalar) (x y : Vec) :
  List.length (zip_with f x y) = Nat.min (List.length x) (List.length y).
Proof. unfold zip_with. now rewrite length_map, length_combine. Qed.

Lemma zip_with_nth (f : PetscScalar -> PetscScalar -> PetscScalar) (x : Vec) :
  forall (y : Vec) (i : nat) (d : PetscScalar),
    (i < List.length x)%nat -> (i < List.length y)%nat ->
    nth i (zip_with f x y) d = f (nth i x d) (nth i y d).
Proof.
  induction x as [|a x IH]; intros [|b y] i d Hx Hy; simpl in *; try lia.
  destruct i as [|i]; [reflexivity|].
  apply IH; lia.
Qed.

Lemma zip_with_ext (f g : PetscScalar -> PetscScalar -> PetscScalar) (x y : Vec) :
  (forall a b, f a b = g a b) -> zip_with f x y = zip_with g x y.
Proof. intros Hfg. unfold zip_with. apply map_ext. intros [a b]. apply Hfg. Qed.

Lemma zip_with_swap (f : PetscScalar -> PetscScalar -> PetscScalar) (x : Vec) :
  forall y : Vec, zip_with f x y = zip_with (fun a b => f b a) y x.
Proof.
  induction x as [|a x IH]; intros [|b y]; try reflexivity.
  unfold zip_with in *. simpl. now rewrite IH.
Qed.

Lemma mat_vec_length (A : Mat) (x : Vec) :
  List.length (mat_vec A x) = List.length A.
Proof. unfold mat_vec. apply length_map. Qed.

Lemma mat_shape_rows (A : Mat) (m n : nat) :
  mat_shape A m n = true -> List.length A = m.
Proof.
  unfold mat_shape. intros H. apply andb_true_iff in H.
  now apply Nat.eqb_eq.
Qed.

Context {L : ScalarLaws F}.

Lemma vec_waxpy_one (x y : Vec) : vec_waxpy scalar_one x y = vec_add x y.
Proof.
  apply zip_with_ext. intros a b. now rewrite scalar_mul_one.
Qed.

Lemma vec_waxpy_neg_one (x y : Vec) :
  vec_waxpy (- scalar_one)%sc x y = vec_sub y x.
Proof.
  unfold vec_waxpy, vec_sub. rewrite (zip_with_swap scalar_sub y x).
  apply zip_with_ext. intros a b. apply scalar_neg_one_mul_add.
Qed.

Lemma vec_add_scale_neg_one (r : Vec) :
  forall v : Vec, vec_add (vec_scale (- scalar_one)%sc r) v = vec_sub v r.
Proof.
  induction r as [|a r IH]; intros [|b v]; try reflexivity.
  unfold vec_add, vec_sub, zip_with in *. simpl.
  now rewrite scalar_neg_one_mul_add, IH.
Qed.
End VectorFacts.

(* ================================================================== *)
(** * The PETSc calls on well-formed arguments *)

Section Calls.
Context {F : Scalar} {E : External F}.
Local Open Scope petsc_scope.

Lemma VecId_eqb_neq (a b : VecId) : a <> b -> VecId_eqb a b = false.
Proof. intros Hab. unfold VecId_eqb. now destruct (VecId_eq_dec a b). Qed.

Lemma same_size_eq (x y : Vec) :
  List.length x = List.length y -> same_size x y = true.
Proof. intros H. unfold same_size. now apply Nat.eqb_eq. Qed.

Lemma VecWAXPY_Ok (w x y : VecId) (alpha : PetscScalar) (p : Process)
    (ws xs ys : Vec) :
  vecs (this p) w = Some ws ->
  vecs (this p) x = Some xs ->
  vecs (this p) y = Some ys ->
  w <> x -> w <> y ->
  List.length xs = List.length ys ->
  List.length ws = List.length xs ->
  VecWAXPY w alpha x y p
  = Ok tt {| this := set_vec w (vec_waxpy alpha xs ys) (this p);
             trace := trace p |}.
Proof.
  intros Hw Hx Hy Hwx Hwy Hxy Hwxs.
  unfold VecWAXPY, get_vec, bind, gets.
  simpl. rewrite Hw. simpl. rewrite Hx. simpl. rewrite Hy. simpl.
  rewrite (VecId_eqb_neq w x Hwx), (VecId_eqb_neq w y Hwy).
  rewrite (same_size_eq xs ys Hxy), (same_size_eq ws xs Hwxs).
  reflexivity.
Qed.

Lemma VecPointwiseMult_Ok (w x y : VecId) (p : Process) (ws xs ys : Vec) :
  vecs (this p) w = Some ws ->
  vecs (this p) x = Some xs ->
  vecs (this p) y = Some ys ->
  List.length xs = List.length ys ->
  List.length ws = List.length xs ->
  VecPointwiseMult w x y p
  = Ok tt {| this := set_vec w (vec_pointwise_mult xs ys) (this p);
             trace := trace p |}.
Proof.
  intros Hw Hx Hy Hxy Hwxs.
  unfold VecPointwiseMult, get_vec, bind, gets.
  simpl. rewrite Hw. simpl. rewrite Hx. simpl. rewrite Hy. simpl.
  rewrite (same_size_eq xs ys Hxy), (same_size_eq ws xs Hwxs).
  reflexivity.
Qed.

Lemma VecScale_Ok (x : VecId) (alpha : PetscScalar) (p : Process) (xs : Vec) :
  vecs (this p) x = Some xs ->
  VecScale x alpha p
  = Ok tt {| this := set_vec x (vec_scale alpha xs) (this p);
             trace := trace p |}.
Proof.
  intros Hx. unfold VecScale, get_vec, bind, gets. simpl. now rewrite Hx.
Qed.

Lemma MatMult_Ok (mat : MatId) (x y : VecId) (p : Process)
    (a : Mat) (xs ys : Vec) :
  mats (this p) mat = Some a ->
  vecs (this p) x = Some xs ->
  vecs (this p) y = Some ys ->
  x <> y ->
  mat_shape a (List.length ys) (List.length xs) = true ->
  MatMult mat x y p
  = Ok tt {| this := set_vec y (mat_vec a xs) (this p); trace := trace p |}.
Proof.
  intros Ha Hx Hy Hxy Hshape.
  unfold MatMult, get_mat, get_vec, bind, gets.
  simpl. rewrite Ha. simpl. rewrite Hx. simpl. rewrite Hy. simpl.
  now rewrite (VecId_eqb_neq x y Hxy), Hshape.
Qed.

Lemma MatMultAdd_Ok (mat : MatId) (v1 v2 v3 : VecId) (p : Process)
    (a : Mat) (x1 x2 x3 : Vec) :
  mats (this p) mat = Some a ->
  vecs (this p) v1 = Some x1 ->
  vecs (this p) v2 = Some x2 ->
  vecs (this p) v3 = Some x3 ->
  v1 <> v3 ->
  mat_shape a (List.length x3) (List.length x1) = true ->
  List.length x2 = List.length x3 ->
  MatMultAdd mat v1 v2 v3 p
  = Ok tt {| this := set_vec v3 (vec_add x2 (mat_vec a x1)) (this p);
             trace := trace p |}.
Proof.
  intros Ha H1 H2 H3 H13 Hshape Hlen.
  unfold MatMultAdd, get_mat, get_vec, bind, gets.
  simpl. rewrite Ha. simpl. rewrite H1. simpl. rewrite H2. simpl. rewrite H3.
  simpl.
  now rewrite (VecId_eqb_neq v1 v3 H13), Hshape, (same_size_eq x2 x3 Hlen).
Qed.

Lemma KSPSolve_Ok (ksp : KSPId) (b x : VecId) (p : Process)
    (c c' : KSP) (bs xs xs' : Vec) :
  ksps (this p) ksp = Some c ->
  vecs (this p) b = Some bs ->
  vecs (this p) x = Some xs ->
  KSPSolve_ext c bs xs = (0, (c', xs')) ->
  KSPSolve ksp b x p
  = Ok tt {| this := set_vec x xs' (set_ksp ksp c' (this p));
             trace := trace p ++ [Solved ksp xs'] |}.
Proof.
  intros Hc Hb Hx Hsolve.
  unfold KSPSolve, get_ksp, get_vec, bind, gets.
  simpl. rewrite Hc. simpl. rewrite Hb. simpl. rewrite Hx. simpl.
  now rewrite Hsolve.
Qed.
End Calls.

(* ================================================================== *)
(** * The assemblies, the solves and the projection *)

Ltac wf_side :=
  simpl; first [ assumption | reflexivity | discriminate | congruence ].

Section Assemblies.
Context {F : Scalar} {E : External F} {I : InlineSources F E}.
Context {L : ScalarLaws F}.
Local Open Scope petsc_scope.

(** C4.  On a solver whose vectors [rn], [bc1], [MHat] and [rhs1] exist and
    have one size, [generateRHS1] returns normally and leaves in [rhs1] the
    element-wise product of [MHat] with the element-wise sum of [rn] and
    [bc1]: entry [i] of [rhs1] is [MHat[i] * (rn[i] + bc1[i])]. *)
Theorem generateRHS1_scaled_sum (p : Process) (rn bc1 MHat old : Vec) :
  vecs (this p) V_rn = Some rn ->
  vecs (this p) V_bc1 = Some bc1 ->
  vecs (this p) V_MHat = Some MHat ->
  vecs (this p) V_rhs1 = Some old ->
  List.length bc1 = List.length rn ->
  List.length MHat = List.length rn ->
  List.length old = List.length rn ->
  exists (p' : Process) (rhs1 : Vec),
    generateRHS1 p = Ok tt p'
    /\ vecs (this p') V_rhs1 = Some rhs1
    /\ rhs1 = vec_pointwise_mult MHat (vec_add rn bc1)
    /\ List.length rhs1 = List.length rn
    /\ forall (i : nat) (d : PetscScalar),
         (i < List.length rn)%nat ->
         nth i rhs1 d = (nth i MHat d * (nth i rn d + nth i bc1 d))%sc.
Proof.
  intros Hrn Hbc1 HMHat Hold Lbc1 LMHat Lold.
  assert (Lsum : List.length (vec_waxpy scalar_one rn bc1) = List.length rn).
  { unfold vec_waxpy. rewrite zip_with_length. lia. }
  eexists. exists (vec_pointwise_mult MHat (vec_add rn bc1)).
  split.
  { unfold generateRHS1, bind, enter, emit. cbv beta iota.
    rewrite (VecWAXPY_Ok V_rhs1 V_rn V_bc1 scalar_one _ old rn bc1)
      by first [wf_side | simpl; lia].
    cbv beta iota.
    rewrite (VecPointwiseMult_Ok V_rhs1 V_MHat V_rhs1 _
               (vec_waxpy scalar_one rn bc1) MHat (vec_waxpy scalar_one rn bc1))
      by first [wf_side | simpl; lia].
    reflexivity. }
  split.
  { simpl. now rewrite vec_waxpy_one. }
  split; [reflexivity|].
  rewrite <- vec_waxpy_one.
  split.
  { unfold vec_pointwise_mult. rewrite zip_with_length. lia. }
  intros i d Hi. unfold vec_pointwise_mult.
  rewrite zip_with_nth by lia.
  rewrite vec_waxpy_one. unfold vec_add.
  now rewrite zip_with_nth by lia.
Qed.

(** C3.  On a solver whose operator [QT] maps vectors of the size of [qStar]
    to vectors of the size of [rhs2], and whose [r2] has the size of [rhs2],
    [generateRHS2] returns normally and leaves in [rhs2] the product
    [QT qStar] minus the value [r2] had when the function was called.  ([r2]
    itself is left negated.) *)
Theorem generateRHS2_product_minus_r2 (p : Process) (QT : Mat)
    (qStar r2 old : Vec) :
  mats (this p) M_QT = Some QT ->
  vecs (this p) V_qStar = Some qStar ->
  vecs (this p) V_r2 = Some r2 ->
  vecs (this p) V_rhs2 = Some old ->
  mat_shape QT (List.length old) (List.length qStar) = true ->
  List.length r2 = List.length old ->
  exists p' : Process,
    generateRHS2 p = Ok tt p'
    /\ vecs (this p') V_rhs2 = Some (vec_sub (mat_vec QT qStar) r2)
    /\ vecs (this p') V_r2 = Some (vec_scale (- scalar_one)%sc r2).
Proof.
  intros HQT HqStar Hr2 Hold Hshape Lr2.
  eexists. split.
  { unfold generateRHS2, bind, enter, emit. cbv beta iota.
    rewrite (VecScale_Ok V_r2 (- scalar_one)%sc _ r2) by wf_side.
    cbv beta iota.
    rewrite (MatMultAdd_Ok M_QT V_qStar V_r2 V_rhs2 _ QT qStar
               (vec_scale (- scalar_one)%sc r2) old)
      by first [wf_side | simpl; unfold vec_scale; rewrite length_map; lia].
    reflexivity. }
  split.
  - simpl. now rewrite vec_add_scale_neg_one.
  - reflexivity.
Qed.

(** On a solver whose operator [BNQ] maps vectors of the size of [lambda] to
    vectors of the size of [temp], and whose [q] and [qStar] have the size of
    [temp], [projectionStep] returns normally and leaves in [q] the vector
    [qStar] minus the product [BNQ lambda]. *)
Lemma projectionStep_Ok (p : Process) (BNQ : Mat)
    (lambda temp qStar q : Vec) :
  mats (this p) M_BNQ = Some BNQ ->
  vecs (this p) V_lambda = Some lambda ->
  vecs (this p) V_temp = Some temp ->
  vecs (this p) V_qStar = Some qStar ->
  vecs (this p) V_q = Some q ->
  mat_shape BNQ (List.length temp) (List.length lambda) = true ->
  List.length qStar = List.length temp ->
  List.length q = List.length temp ->
  exists p' : Process,
    projectionStep p = Ok tt p'
    /\ vecs (this p') V_q = Some (vec_sub qStar (mat_vec BNQ lambda)).
Proof.
  intros HBNQ Hlambda Htemp HqStar Hq Hshape LqStar Lq.
  pose proof (mat_shape_rows _ _ _ Hshape) as Lrows.
  eexists. split.
  { unfold projectionStep, bind, enter, emit. cbv beta iota.
    rewrite (MatMult_Ok M_BNQ V_lambda V_temp _ BNQ lambda temp) by wf_side.
    cbv beta iota.
    rewrite (VecWAXPY_Ok V_q V_temp V_qStar (- scalar_one)%sc _
               q (mat_vec BNQ lambda) qStar)
      by first [wf_side | simpl; rewrite ?mat_vec_length; lia].
    reflexivity. }
  simpl. now rewrite vec_waxpy_neg_one.
Qed.
End Assemblies.

Section Solves.
Context {F : Scalar} {E : External F} {Rep : Reporting F}.
Local Open Scope petsc_scope.

(** The three reporting calls, by the error code they come back with. *)
Lemma PetscLogStagePush_run (st : PetscLogStage) (p : Process) :
  PetscLogStagePush st p
  = if PetscLogStagePush_ext (trace p) st =? 0
    then Ok tt {| this := this p; trace := trace p ++ [StagePush st] |}
    else Raise (PetscLogStagePush_ext (trace p) st) p.
Proof.
  unfold PetscLogStagePush, history, bind, chk, emit, ret, raise.
  now destruct (PetscLogStagePush_ext (trace p) st =? 0).
Qed.

Lemma PetscLogStagePop_run (p : Process) :
  PetscLogStagePop p
  = if PetscLogStagePop_ext (trace p) =? 0
    then Ok tt {| this := this p; trace := trace p ++ [StagePop] |}
    else Raise (PetscLogStagePop_ext (trace p)) p.
Proof.
  unfold PetscLogStagePop, history, bind, chk, emit, ret, raise.
  now destruct (PetscLogStagePop_ext (trace p) =? 0).
Qed.

Lemma PetscPrintf_run (before after : string) (n : Z) (p : Process) :
  let line := (before ++ decimal n ++ after)%string in
  PetscPrintf before n after p
  = if PetscPrintf_ext (trace p) line =? 0
    then Ok tt {| this := this p; trace := trace p ++ [Printed line] |}
    else Raise (PetscPrintf_ext (trace p) line) p.
Proof.
  intros line.
  unfold PetscPrintf, history, bind, chk, emit, ret, raise. fold line.
  now destruct (PetscPrintf_ext (trace p) line =? 0).
Qed.

(** The solve of system [k] on a solver whose Krylov context and vectors
    exist, when [KSPSolve] comes back with error code 0: the four endings, by
    the error codes of the reporting calls and the sign of the reason. *)
Lemma system_solve_outcome (k : KSPId) (p : Process) (c c' : KSP)
    (b x x' : Vec) :
  ksps (this p) k = Some c ->
  vecs (this p) (system_rhs k) = Some b ->
  vecs (this p) (system_unknown k) = Some x ->
  KSPSolve_ext c b x = (0, (c', x')) ->
  let reason := KSPGetConvergedReason_ext c' in
  let solved := set_vec (system_unknown k) x' (set_ksp k c' (this p)) in
  let entry := trace p ++ [Enter (system_method k)] in
  let solving := trace p ++ [Enter (system_method k);
                             StagePush (system_stage k); Solved k x'] in
  let popped := trace p ++ [Enter (system_method k);
                            StagePush (system_stage k); Solved k x';
                            StagePop] in
  let line := diverged_line (system_name k) reason in
  let push := PetscLogStagePush_ext entry (system_stage k) in
  let pop := PetscLogStagePop_ext solving in
  let print := PetscPrintf_ext popped line in
  system_solve k p
  = if push =? 0 then
      if pop =? 0 then
        if reason <? 0 then
          if print =? 0
          then Exit 0 {| this := solved; trace := popped ++ [Printed line] |}
          else Raise print {| this := solved; trace := popped |}
        else Ok tt {| this := solved; trace := popped |}
      else Raise pop {| this := solved; trace := solving |}
    else Raise push {| this := this p; trace := entry |}.
Proof.
  intros Hc Hb Hx Hsolve. cbv zeta.
  destruct k;
    cbn [system_solve system_method system_stage system_name system_rhs
         system_unknown] in *.
  - unfold solveIntermediateVelocity, bind.
    change (enter m_solveIntermediateVelocity p)
      with (Ok tt {| this := this p;
                     trace := trace p ++ [Enter m_solveIntermediateVelocity] |}).
    cbv beta iota. rewrite PetscLogStagePush_run. cbn [trace this].
    destruct (PetscLogStagePush_ext _ _ =? 0); [|reflexivity].
    rewrite (KSPSolve_Ok K_ksp1 V_rhs1 V_qStar _ c c' b x x') by wf_side.
    rewrite PetscLogStagePop_run. cbn [trace this].
    rewrite <- !app_assoc. cbn [app].
    destruct (PetscLogStagePop_ext _ =? 0); [|reflexivity].
    unfold KSPGetConvergedReason, get_ksp, bind, gets, ret. simpl.
    destruct (KSPGetConvergedReason_ext c' <? 0);
      [|now rewrite <- ?app_assoc].
    rewrite PetscPrintf_run. cbn [trace this].
    rewrite <- ?app_assoc. cbn [app]. unfold diverged_line.
    now destruct (PetscPrintf_ext _ _ =? 0).
  - unfold solvePoissonSystem, bind.
    change (enter m_solvePoissonSystem p)
      with (Ok tt {| this := this p;
                     trace := trace p ++ [Enter m_solvePoissonSystem] |}).
    cbv beta iota. rewrite PetscLogStagePush_run. cbn [trace this].
    destruct (PetscLogStagePush_ext _ _ =? 0); [|reflexivity].
    rewrite (KSPSolve_Ok K_ksp2 V_rhs2 V_lambda _ c c' b x x') by wf_side.
    rewrite PetscLogStagePop_run. cbn [trace this].
    rewrite <- !app_assoc. cbn [app].
    destruct (PetscLogStagePop_ext _ =? 0); [|reflexivity].
    unfold KSPGetConvergedReason, get_ksp, bind, gets, ret. simpl.
    destruct (KSPGetConvergedReason_ext c' <? 0);
      [|now rewrite <- ?app_assoc].
    rewrite PetscPrintf_run. cbn [trace this].
    rewrite <- ?app_assoc. cbn [app]. unfold diverged_line.
    now destruct (PetscPrintf_ext _ _ =? 0).
Qed.
End Solves.

Section Divergence.
Context {F : Scalar} {E : External F} {Rep : Reporting F}.

(** C5, amended.  Take the solve function of System 1 or System 2 on a
    solver whose Krylov context and vectors exist, its [KSPSolve] call coming
    back with error code 0, and write [push], [pop] and [print] for the error
    codes of its calls of [PetscLogStagePush], [PetscLogStagePop] and
    [PetscPrintf].  With [push] and [pop] 0 the function looks at the
    convergence reason the solver left.  If it is negative, the function
    calls [PetscPrintf] with one line that holds the reason code (and nothing
    about the step); when [print] is 0 the line is printed and the process
    exits with status 0, and when [print] is not 0 the function returns that
    code instead of exiting, nothing printed.  In both cases the solver was
    called once and the state is the state [KSPSolve] left.  If the reason
    is not negative, the function returns normally, in that same state.  A
    [pop] that is not 0 is returned before the reason is read, and a [push]
    that is not 0 before the solver is called. *)
Theorem diverged_solve_exits (k : KSPId) (p : Process) (c c' : KSP)
    (b x x' : Vec) :
  ksps (this p) k = Some c ->
  vecs (this p) (system_rhs k) = Some b ->
  vecs (this p) (system_unknown k) = Some x ->
  KSPSolve_ext c b x = (0, (c', x')) ->
  let reason := KSPGetConvergedReason_ext c' in
  let solved := set_vec (system_unknown k) x' (set_ksp k c' (this p)) in
  let entry := [Enter (system_method k)] in
  let solving := [Enter (system_method k); StagePush (system_stage k);
                  Solved k x'] in
  let events := [Enter (system_method k); StagePush (system_stage k);
                 Solved k x'; StagePop] in
  let line := diverged_line (system_name k) reason in
  let push := PetscLogStagePush_ext (trace p ++ entry) (system_stage k) in
  let pop := PetscLogStagePop_ext (trace p ++ solving) in
  let print := PetscPrintf_ext (trace p ++ events) line in
  (push = 0 -> pop = 0 -> reason < 0 -> print = 0 ->
   system_solve k p
   = Exit 0 {| this := solved;
               trace := trace p ++ events ++ [Printed line] |})
  /\ (push = 0 -> pop = 0 -> reason < 0 -> print <> 0 ->
      system_solve k p
      = Raise print {| this := solved; trace := trace p ++ events |})
  /\ (push = 0 -> pop = 0 -> 0 <= reason ->
      system_solve k p = Ok tt {| this := solved; trace := trace p ++ events |})
  /\ (push = 0 -> pop <> 0 ->
      system_solve k p
      = Raise pop {| this := solved; trace := trace p ++ solving |})
  /\ (push <> 0 ->
      system_solve k p
      = Raise push {| this := this p; trace := trace p ++ entry |}).
Proof.
  intros Hc Hb Hx Hsolve reason solved entry solving events line push pop print.
  pose proof (system_solve_outcome k p c c' b x x' Hc Hb Hx Hsolve) as Hrun.
  cbv zeta in Hrun.
  fold reason solved line in Hrun.
  change (PetscLogStagePush_ext (trace p ++ [Enter (system_method k)])
            (system_stage k)) with push in Hrun.
  change (PetscLogStagePop_ext
            (trace p ++ [Enter (system_method k); StagePush (system_stage k);
                         Solved k x'])) with pop in Hrun.
  change (PetscPrintf_ext
            (trace p ++ [Enter (system_method k); StagePush (system_stage k);
                         Solved k x'; StagePop]) line) with print in Hrun.
  rewrite Hrun. clear Hrun.
  assert (Hneg : reason < 0 -> (reason <? 0) = true)
    by (intros H; apply Z.ltb_lt; exact H).
  assert (Hpos : 0 <= reason -> (reason <? 0) = false)
    by (intros H; apply Z.ltb_ge; exact H).
  repeat split.
  - intros -> -> Hreason ->. rewrite (Hneg Hreason). simpl.
    now rewrite <- app_assoc.
  - intros -> -> Hreason Hprint. rewrite (Hneg Hreason). simpl.
    now destruct (Z.eqb_spec print 0).
  - intros -> -> Hreason. now rewrite (Hpos Hreason).
  - intros -> Hpop. simpl. now destruct (Z.eqb_spec pop 0).
  - intros Hpush. now destruct (Z.eqb_spec push 0).
Qed.
End Divergence.

(* ================================================================== *)
(** * One whole step: what the projection is fed *)

(** Turns [H : m p = Ok a p'], for [m] one of the solves or the projection,
    into what the PETSc calls inside must have found and done. *)
Ltac destruct_innermost H :=
  match type of H with
  | context [match ?x with _ => _ end] =>
      lazymatch x with
      | context [match _ with _ => _ end] => fail
      | _ => destruct x eqn:?; simpl in H; try discriminate H
      end
  end.

Ltac invert_run H :=
  cbv beta zeta delta
    [solveIntermediateVelocity solvePoissonSystem projectionStep
     VecWAXPY MatMult KSPSolve KSPGetConvergedReason PetscLogStagePush
     PetscLogStagePop PetscPrintf enter get_ksp get_vec get_mat bind gets
     modify emit chk ret raise exit] in H;
  simpl in H;
  repeat destruct_innermost H;
  inversion H; subst; clear H.

Section WholeStep.
Context {F : Scalar} {E : External F} {Rep : Reporting F}
  {I : InlineSources F E}.
Local Open Scope petsc_scope.

Lemma keeps_Ok {A X : Type} (f : Process -> X) (m : M A)
    (p p' : Process) (a : A) :
  keeps f m -> m p = Ok a p' -> f p' = f p.
Proof. intros Hk Hrun. specialize (Hk p). now rewrite Hrun in Hk. Qed.

Lemma solveIntermediateVelocity_Ok_inv (p p' : Process) :
  solveIntermediateVelocity p = Ok tt p' ->
  exists qs : Vec,
    vecs (this p') V_qStar = Some qs
    /\ solutions (trace p') = solutions (trace p) ++ [(K_ksp1, qs)]
    /\ mats (this p') M_BNQ = mats (this p) M_BNQ.
Proof.
  intros H. invert_run H. simpl. eexists. split; [reflexivity|].
  split; [|reflexivity].
  rewrite !solutions_app. simpl. now rewrite !app_nil_r.
Qed.

Lemma solvePoissonSystem_Ok_inv (p p' : Process) :
  solvePoissonSystem p = Ok tt p' ->
  exists lam : Vec,
    vecs (this p') V_lambda = Some lam
    /\ solutions (trace p') = solutions (trace p) ++ [(K_ksp2, lam)]
    /\ mats (this p') M_BNQ = mats (this p) M_BNQ
    /\ vecs (this p') V_qStar = vecs (this p) V_qStar.
Proof.
  intros H. invert_run H. simpl. eexists. split; [reflexivity|].
  split; [|split; reflexivity].
  rewrite !solutions_app. simpl. now rewrite !app_nil_r.
Qed.

Lemma projectionStep_Ok_inv {L : ScalarLaws F} (p p' : Process) :
  projectionStep p = Ok tt p' ->
  exists (BNQ : Mat) (lambda qStar : Vec),
    mats (this p) M_BNQ = Some BNQ
    /\ vecs (this p) V_lambda = Some lambda
    /\ vecs (this p) V_qStar = Some qStar
    /\ vecs (this p') V_q = Some (vec_sub qStar (mat_vec BNQ lambda))
    /\ solutions (trace p') = solutions (trace p).
Proof.
  intros H. invert_run H. simpl.
  do 3 eexists. repeat (split; [reflexivity|]).
  split.
  - now rewrite vec_waxpy_neg_one.
  - rewrite solutions_app. simpl. now rewrite app_nil_r.
Qed.

Lemma stepTime_projects_solutions {L : ScalarLaws F} (p p' : Process) :
  stepTime p = Ok tt p' ->
  exists (BNQ : Mat) (qStar lambda : Vec),
    mats (this p) M_BNQ = Some BNQ
    /\ solutions (trace p')
       = solutions (trace p) ++ [(K_ksp1, qStar); (K_ksp2, lambda)]
    /\ vecs (this p') V_q = Some (vec_sub qStar (mat_vec BNQ lambda)).
Proof.
  unfold stepTime. intros H.
  repeat (apply bind_Ok_inv in H; destruct H as ([] & ? & ? & H)).
  inversion H; subst; clear H.
  repeat match goal with
  | Hrun : solveIntermediateVelocity _ = Ok tt _ |- _ =>
      apply solveIntermediateVelocity_Ok_inv in Hrun;
      destruct Hrun as (qs & ? & ? & ?)
  | Hrun : solvePoissonSystem _ = Ok tt _ |- _ =>
      apply solvePoissonSystem_Ok_inv in Hrun;
      destruct Hrun as (lam & ? & ? & ? & ?)
  | Hrun : projectionStep _ = Ok tt _ |- _ =>
      apply projectionStep_Ok_inv in Hrun;
      destruct Hrun as (B & lam' & qs' & ? & ? & ? & ? & ?)
  | Hrun : ?m _ = Ok tt _ |- _ =>
      let Hl := fresh "Hl" in
      let Hq := fresh "Hq" in
      assert (Hl := keeps_Ok link m _ _ _ ltac:(unfold link, timeStep_incr; keeps_auto) Hrun);
      assert (Hq := keeps_Ok (fun p => vecs (this p) V_q) m _ _ _
                      ltac:(unfold timeStep_incr; keeps_auto) Hrun);
      clear Hrun
  end.
  unfold link in *.
  exists B, qs, lam.
  assert (Hassoc : (solutions (trace p) ++ [(K_ksp1, qs)]) ++ [(K_ksp2, lam)]
                   = solutions (trace p) ++ [(K_ksp1, qs); (K_ksp2, lam)])
    by (now rewrite <- app_assoc).
  repeat split; congruence.
Qed.

(** C2.  [projectionStep] sets [q] to [qStar - BNQ lambda]: on a solver whose
    operator [BNQ] and vectors [lambda], [temp], [qStar] and [q] exist with
    matching sizes it returns normally with that [q]; and in every call of
    [stepTime] that returns normally, the [qStar] and the [lambda] it is
    given are the vectors the step's two [KSPSolve] calls returned, System 1
    first, System 2 second. *)
Theorem projectionStep_subtracts_product {L : ScalarLaws F} (p : Process) :
  (forall (BNQ : Mat) (lambda temp qStar q : Vec),
     mats (this p) M_BNQ = Some BNQ ->
     vecs (this p) V_lambda = Some lambda ->
     vecs (this p) V_temp = Some temp ->
     vecs (this p) V_qStar = Some qStar ->
     vecs (this p) V_q = Some q ->
     mat_shape BNQ (List.length temp) (List.length lambda) = true ->
     List.length qStar = List.length temp ->
     List.length q = List.length temp ->
     exists p' : Process,
       projectionStep p = Ok tt p'
       /\ vecs (this p') V_q = Some (vec_sub qStar (mat_vec BNQ lambda)))
  /\ (forall p' : Process,
       stepTime p = Ok tt p' ->
       exists (BNQ : Mat) (qStar lambda : Vec),
         mats (this p) M_BNQ = Some BNQ
         /\ solutions (trace p')
            = solutions (trace p) ++ [(K_ksp1, qStar); (K_ksp2, lambda)]
         /\ vecs (this p') V_q = Some (vec_sub qStar (mat_vec BNQ lambda))).
Proof.
  split.
  - intros BNQ lambda temp qStar q. apply projectionStep_Ok.
  - apply stepTime_projects_solutions.
Qed.
End WholeStep.

(* ================================================================== *)
(** * The theorems on the concrete solver *)

Section Examples.
Import Demo.

(** One whole step on the concrete solver, both solves converging. *)
Lemma stepTime_runs_sequence_witness :
  exists p' : Process,
    stepTime (process 2 2) = Ok tt p'
    /\ entered (trace p') = step_sequence
    /\ timeStep (this p') = 8.
Proof.
  assert (Hrun : stepTime (process 2 2)
                 = Ok tt (final (stepTime (process 2 2))))
    by (vm_compute; reflexivity).
  destruct (proj1 (stepTime_runs_sequence (process 2 2)) _ Hrun) as [Hent Hts].
  exists (final (stepTime (process 2 2))).
  split; [exact Hrun|]. split; [exact Hent|].
  rewrite Hts. reflexivity.
Defined.

(** C1 as stated fails when the first solve diverges: the call of [stepTime]
    ends in [exit(0)] after five of the nine sub-steps, and [timeStep] is
    still 7. *)
Lemma stepTime_diverged_counterexample :
  exists p' : Process,
    stepTime (process (-3) 2) = Exit 0 p'
    /\ entered (trace p')
       = [m_calculateExplicitTerms; m_updateBoundaryGhosts; m_generateBC1;
          m_generateRHS1; m_solveIntermediateVelocity]
    /\ timeStep (this (process (-3) 2)) = 7
    /\ timeStep (this p') = 7
    /\ ~ (entered (trace p') = entered (trace (process (-3) 2)) ++ step_sequence
          /\ timeStep (this p') = timeStep (this (process (-3) 2)) + 1).
Proof.
  exists (final (stepTime (process (-3) 2))).
  split; [vm_compute; reflexivity|].
  split; [vm_compute; reflexivity|].
  split; [reflexivity|].
  split; [vm_compute; reflexivity|].
  intros [Hent _]. vm_compute in Hent. discriminate Hent.
Qed.

Lemma projectionStep_subtracts_product_witness :
  (exists p' : Process,
     projectionStep (process 2 2) = Ok tt p'
     /\ vecs (this p') V_q = Some [-10; -21])
  /\ (exists p' : Process,
        stepTime (process 2 2) = Ok tt p'
        /\ solutions (trace p') = [(K_ksp1, [8; 15]); (K_ksp2, [18])]
        /\ vecs (this p') V_q = Some [-10; -21]).
Proof.
  destruct (projectionStep_subtracts_product (process 2 2)) as [Hcall Hstep].
  split.
  - destruct (Hcall [[1]; [2]] [18] [0; 0] [8; 15] [0; 0])
      as (p' & Hrun & Hq); try reflexivity.
    exists p'. split; [exact Hrun | exact Hq].
  - assert (Hrun : stepTime (process 2 2)
                   = Ok tt (final (stepTime (process 2 2))))
      by (vm_compute; reflexivity).
    destruct (Hstep _ Hrun) as (B & qs & lam & HB & Hsol & Hq).
    vm_compute in HB, Hsol. inversion HB; inversion Hsol; subst B qs lam.
    exists (final (stepTime (process 2 2))).
    split; [exact Hrun|].
    split; [vm_compute; reflexivity | exact Hq].
Defined.

Lemma generateRHS2_product_minus_r2_witness :
  exists p' : Process,
    generateRHS2 (process 2 2) = Ok tt p'
    /\ vecs (this p') V_rhs2 = Some [18]
    /\ vecs (this p') V_r2 = Some [-5].
Proof.
  destruct (generateRHS2_product_minus_r2 (process 2 2)
              [[1; 1]] [8; 15] [5] [0])
    as (p' & Hrun & Hrhs2 & Hr2); try reflexivity.
  exists p'. split; [exact Hrun|]. split; [exact Hrhs2 | exact Hr2].
Defined.

Lemma generateRHS1_scaled_sum_witness :
  exists p' : Process,
    generateRHS1 (process 2 2) = Ok tt p'
    /\ vecs (this p') V_rhs1 = Some [8; 15].
Proof.
  destruct (generateRHS1_scaled_sum (process 2 2) [3; 4] [1; 1] [2; 3] [0; 0])
    as (p' & rhs1 & Hrun & Hrhs1 & Hval & _); try reflexivity.
  exists p'. split; [exact Hrun|].
  rewrite Hrhs1, Hval. reflexivity.
Defined.

(** The first solve of the concrete solver diverging with reason -3: with
    a [PetscPrintf] that succeeds the process exits, with one that fails
    with code 66 the function returns 66 and nothing is printed. *)
Lemma diverged_solve_exits_witness :
  (exists p' : Process,
     solveIntermediateVelocity (process (-3) 2) = Exit 0 p'
     /\ printed (trace p') = [diverged_line "Velocity" (-3)]
     /\ solutions (trace p') = [(K_ksp1, [0; 0])]
     /\ vecs (this p') V_qStar = Some [0; 0])
  /\ (exists p' : Process,
        @solveIntermediateVelocity scalarZ externalZ printfFails
          (process (-3) 2) = Raise 66 p'
        /\ printed (trace p') = []
        /\ solutions (trace p') = [(K_ksp1, [0; 0])]
        /\ vecs (this p') V_qStar = Some [0; 0]).
Proof.
  split.
  - destruct (diverged_solve_exits K_ksp1 (process (-3) 2) (-3) (-3)
                [0; 0] [8; 15] [0; 0]) as [Hneg _]; try reflexivity.
    eexists. split; [apply Hneg; reflexivity|].
    repeat split.
  - destruct (@diverged_solve_exits scalarZ externalZ printfFails K_ksp1
                (process (-3) 2) (-3) (-3) [0; 0] [8; 15] [0; 0])
      as (_ & Hfail & _); try reflexivity.
    eexists. split; [apply Hfail; try reflexivity; discriminate|].
    repeat split.
Defined.

(** C5 as stated fails on the step index: at step 7 the line printed for a
    solve that diverged with reason -3 holds "-3" and no "7". *)
Lemma diverged_line_omits_step_counterexample :
  exists (p' : Process) (line : string),
    solveIntermediateVelocity (process (-3) 2) = Exit 0 p'
    /\ timeStep (this (process (-3) 2)) = 7
    /\ printed (trace p') = [line]
    /\ occurs_in (decimal (-3)) line = true
    /\ occurs_in (decimal (timeStep (this (process (-3) 2)))) line = false.
Proof.
  exists (final (solveIntermediateVelocity (process (-3) 2))).
  exists (diverged_line "Velocity" (-3)).
  repeat split; vm_compute; reflexivity.
Qed.

Lemma finished_after_nt_steps_witness :
  exists p' : Process,
    stepTimes 3 (process 2 2) = Ok tt p'
    /\ timeStep (this p') = 10
    /\ finished (this p') = Val PETSC_TRUE.
Proof.
  assert (Hrun : stepTimes 3 (process 2 2)
                 = Ok tt (final (stepTimes 3 (process 2 2))))
    by (vm_compute; reflexivity).
  destruct (@finished_after_nt_steps scalarZ externalZ reportingZ inlineZ
              "case" tt tt parameters None
              (process 2 2) _ 3 eq_refl eq_refl Hrun)
    as (Hts & _ & Hfin).
  exists (final (stepTimes 3 (process 2 2))).
  split; [exact Hrun|]. split; [exact Hts | exact (Hfin eq_refl)].
Defined.

(** C7 as stated fails when [s0 + k] does not fit a [PetscInt].  Built with
    [startStep = 2147483647] and [nt = 1], the solver has completed none of
    the one step asked for, so the claim wants [PETSC_FALSE]; but
    [startStep + nt] overflows, and [finished] has no defined answer. *)
Lemma finished_overflow_counterexample :
  timeStep (@NavierStokesSolver_new scalarZ externalZ
              "case" tt tt parameters_edge None)
  = startStep parameters_edge
  /\ timeStep (@NavierStokesSolver_new scalarZ externalZ
                 "case" tt tt parameters_edge None)
     < startStep parameters_edge + nt parameters_edge
  /\ finished (@NavierStokesSolver_new scalarZ externalZ
                 "case" tt tt parameters_edge None)
     = Trap SignedOverflow
  /\ finished (@NavierStokesSolver_new scalarZ externalZ
                 "case" tt tt parameters_edge None)
     <> Val PETSC_FALSE.
Proof.
  split; [reflexivity|]. split; [reflexivity|]. split; [reflexivity|].
  discriminate.
Qed.

Lemma savePoint_multiples_of_nsave_witness :
  savePoint (set_timeStep 10 (solver 2 2)) = Val PETSC_TRUE
  /\ savePoint (solver 2 2) = Val PETSC_FALSE.
Proof.
  split.
  - apply (savePoint_multiples_of_nsave (set_timeStep 10 (solver 2 2)));
      [reflexivity | discriminate | exists 5; reflexivity].
  - reflexivity.
Defined.

Lemma savePoint_needs_nonzero_nsave_witness :
  exists b : PetscBool, savePoint (solver 2 2) = Val b.
Proof.
  apply (savePoint_needs_nonzero_nsave (solver 2 2)). reflexivity.
Defined.
End Examples.


(* ================================================================== *)
(** * More on [countNumNonZeros] *)

Lemma count_local_empty_range (rowStart rowEnd : PetscInt) (cols : list PetscInt) :
  rowEnd <= rowStart -> count_local rowStart rowEnd cols = 0%nat.
Proof.
  intros Hempty. unfold count_local.
  induction cols as [|c cols IH]; simpl; [reflexivity|].
  replace (in_row_range rowStart rowEnd c) with false; [exact IH|].
  symmetry. unfold in_row_range. apply andb_false_iff.
  destruct (Z.leb_spec rowStart c); [right; apply Z.ltb_ge; lia | now left].
Qed.

Lemma count_local_full_range (rowStart rowEnd : PetscInt) (cols : list PetscInt) :
  (forall c, In c cols -> rowStart <= c < rowEnd) ->
  count_local rowStart rowEnd cols = List.length cols.
Proof.
  unfold count_local.
  induction cols as [|c cols IH]; intros Hall; simpl; [reflexivity|].
  replace (in_row_range rowStart rowEnd c) with true.
  - simpl. f_equal. apply IH. intros c' Hc'. apply Hall. now right.
  - symmetry. unfold in_row_range. apply andb_true_iff.
    specialize (Hall c (or_introl eq_refl)).
    split; [apply Z.leb_le | apply Z.ltb_lt]; lia.
Qed.

Lemma count_local_Permutation (rowStart rowEnd : PetscInt)
    (cols cols' : list PetscInt) :
  Permutation cols cols' ->
  count_local rowStart rowEnd cols = count_local rowStart rowEnd cols'.
Proof.
  unfold count_local.
  induction 1 as [|c l l' _ IH|c c' l|l l' l'' _ IH1 _ IH2]; simpl.
  - reflexivity.
  - destruct (in_row_range rowStart rowEnd c); simpl; now rewrite IH.
  - destruct (in_row_range rowStart rowEnd c),
             (in_row_range rowStart rowEnd c'); reflexivity.
  - now rewrite IH1.
Qed.

(** The two extremes of the owned range.  When the range is empty
    ([rowEnd <= rowStart]) every column index is counted off-diagonal; when
    it holds every entry of [cols] (one process owning all rows), every
    column index is counted diagonal. *)
Theorem countNumNonZeros_extreme_ranges (cols : list PetscInt) (numCols : nat)
    (rowStart rowEnd : PetscInt) (d_nnz o_nnz : PetscInt) :
  List.length cols = numCols ->
  Z.of_nat numCols <= PETSC_MAX_INT ->
  (rowEnd <= rowStart ->
   countNumNonZeros cols numCols rowStart rowEnd d_nnz o_nnz
   = Val (0, Z.of_nat numCols))
  /\ ((forall c, In c cols -> rowStart <= c < rowEnd) ->
      countNumNonZeros cols numCols rowStart rowEnd d_nnz o_nnz
      = Val (Z.of_nat numCols, 0)).
Proof.
  intros Hlen Hmax.
  assert (Hrun : countNumNonZeros cols numCols rowStart rowEnd d_nnz o_nnz
                 = Val (Z.of_nat (count_local rowStart rowEnd cols),
                        Z.of_nat (count_remote rowStart rowEnd cols))).
  { unfold countNumNonZeros.
    rewrite countNumNonZeros_for_counts by (simpl; lia). reflexivity. }
  pose proof (count_local_remote rowStart rowEnd cols) as Hsum.
  rewrite Hrun. split.
  - intros Hempty.
    pose proof (count_local_empty_range rowStart rowEnd cols Hempty).
    do 2 f_equal; lia.
  - intros Hall.
    pose proof (count_local_full_range rowStart rowEnd cols Hall).
    do 2 f_equal; lia.
Qed.

Lemma countNumNonZeros_extreme_ranges_witness :
  countNumNonZeros [4; 7; 1] 3 5 5 0 0 = Val (0, 3)
  /\ countNumNonZeros [4; 7; 1] 3 0 8 0 0 = Val (3, 0).
Proof.
  split.
  - apply (countNumNonZeros_extreme_ranges [4; 7; 1] 3 5 5 0 0 eq_refl);
      [unfold PETSC_MAX_INT; lia | lia].
  - apply (countNumNonZeros_extreme_ranges [4; 7; 1] 3 0 8 0 0 eq_refl);
      [unfold PETSC_MAX_INT; lia |].
    intros c [<-|[<-|[<-|[]]]]; lia.
Defined.

(** The counts do not depend on the order in which the column indices of the
    row are listed. *)
Theorem countNumNonZeros_order_independent (cols cols' : list PetscInt)
    (rowStart rowEnd : PetscInt) (d_nnz o_nnz d_nnz' o_nnz' : PetscInt) :
  Permutation cols cols' ->
  Z.of_nat (List.length cols) <= PETSC_MAX_INT ->
  countNumNonZeros cols (List.length cols) rowStart rowEnd d_nnz o_nnz
  = countNumNonZeros cols' (List.length cols') rowStart rowEnd d_nnz' o_nnz'.
Proof.
  intros Hperm Hmax.
  pose proof (Permutation_length Hperm) as Hlen.
  unfold countNumNonZeros.
  rewrite !countNumNonZeros_for_counts by (simpl; lia).
  simpl skipn.
  pose proof (count_local_remote rowStart rowEnd cols) as Hsum.
  pose proof (count_local_remote rowStart rowEnd cols') as Hsum'.
  pose proof (count_local_Permutation rowStart rowEnd cols cols' Hperm).
  do 2 f_equal; lia.
Qed.

Lemma countNumNonZeros_order_independent_witness :
  countNumNonZeros [4; 7; 1] 3 3 8 0 0 = countNumNonZeros [1; 4; 7] 3 3 8 9 9.
Proof.
  apply (countNumNonZeros_order_independent [4; 7; 1] [1; 4; 7] 3 8 0 0 9 9).
  - apply Permutation_sym, (Permutation_cons_app [4; 7] [] 1). now rewrite app_nil_r.
  - unfold PETSC_MAX_INT. simpl. lia.
Defined.


(* ================================================================== *)
(** * What the sub-steps of the source write: proofs *)


Ltac footprint_side :=
  intros;
  first [ reflexivity
        | cbn [this vecs ksps set_vec set_ksp set_timeStep];
          repeat match goal with
                 | |- context [VecId_eq_dec ?a ?b] =>
                     destruct (VecId_eq_dec a b); [congruence|]
                 | |- context [KSPId_eq_dec ?a ?b] =>
                     destruct (KSPId_eq_dec a b); [congruence|]
                 end;
          reflexivity ].

Ltac footprint_auto :=
  unfold_calls;
  repeat first
    [ apply keeps_ret | apply keeps_raise | apply keeps_exit
    | apply keeps_crash | apply keeps_gets | apply keeps_chk
    | apply keeps_history
    | apply keeps_emit; footprint_side
    | apply keeps_modify; footprint_side
    | apply keeps_bind; [ | intros ]
    | match goal with
      | |- keeps _ (match ?x with _ => _ end) => destruct x
      end ].

Section FootprintFacts.
Context {F : Scalar} {E : External F} {Rep : Reporting F}.

(** However they end, the five sub-steps written out in the source touch
    only their own outputs: [generateRHS1] writes [rhs1]; [generateRHS2]
    writes [r2] and [rhs2]; [solveIntermediateVelocity] writes [qStar] and the
    context of [ksp1]; [solvePoissonSystem] writes [lambda] and the context
    of [ksp2]; [projectionStep] writes [temp] and [q].  None of them changes
    an operator, the step counter, the parameters or any other member. *)
Theorem substeps_write_only_their_outputs :
  (forall v, v <> V_rhs1 ->
     keeps (fun p => vecs (this p) v) generateRHS1)
  /\ (forall v, v <> V_r2 -> v <> V_rhs2 ->
        keeps (fun p => vecs (this p) v) generateRHS2)
  /\ (forall v, v <> V_qStar ->
        keeps (fun p => vecs (this p) v) solveIntermediateVelocity)
  /\ (forall v, v <> V_lambda ->
        keeps (fun p => vecs (this p) v) solvePoissonSystem)
  /\ (forall v, v <> V_temp -> v <> V_q ->
        keeps (fun p => vecs (this p) v) projectionStep)
  /\ (keeps (fun p => ksps (this p)) generateRHS1
      /\ keeps (fun p => ksps (this p)) generateRHS2
      /\ keeps (fun p => ksps (this p)) projectionStep
      /\ keeps (fun p => ksps (this p) K_ksp2) solveIntermediateVelocity
      /\ keeps (fun p => ksps (this p) K_ksp1) solvePoissonSystem)
  /\ (keeps fixed_part generateRHS1
      /\ keeps fixed_part generateRHS2
      /\ keeps fixed_part solveIntermediateVelocity
      /\ keeps fixed_part solvePoissonSystem
      /\ keeps fixed_part projectionStep).
Proof.
  repeat apply conj; intros; unfold fixed_part; footprint_auto.
Qed.
End FootprintFacts.


(* ================================================================== *)
(** * Rules for [yields] *)

Section YieldsRules.
Context {F : Scalar} {E : External F} {Rep : Reporting F}.

Lemma stage_depth_app (t u : list Event) :
  stage_depth (t ++ u) = stage_depth t + stage_depth u.
Proof.
  induction t as [|e t IH]; simpl; [reflexivity|].
  destruct e; rewrite IH; lia.
Qed.

Lemma printed_app (t u : list Event) :
  printed (t ++ u) = printed t ++ printed u.
Proof.
  induction t as [|e t IH]; simpl; [reflexivity|].
  destruct e; simpl; now rewrite IH.
Qed.

Lemma yields_ret {A : Type} (a : A) (P : Ending -> list Event -> Prop) :
  P Returned [] -> yields (ret a) P.
Proof. intros H p. exists []. simpl. now rewrite app_nil_r. Qed.

Lemma yields_gets {A : Type} (g : NavierStokesSolver -> A)
    (P : Ending -> list Event -> Prop) :
  P Returned [] -> yields (gets g) P.
Proof. intros H p. exists []. simpl. now rewrite app_nil_r. Qed.

Lemma yields_history (P : Ending -> list Event -> Prop) :
  P Returned [] -> yields history P.
Proof. intros H p. exists []. simpl. now rewrite app_nil_r. Qed.

Lemma yields_modify (g : NavierStokesSolver -> NavierStokesSolver)
    (P : Ending -> list Event -> Prop) :
  P Returned [] -> yields (modify g) P.
Proof. intros H p. exists []. simpl. now rewrite app_nil_r. Qed.

Lemma yields_emit (e : Event) (P : Ending -> list Event -> Prop) :
  P Returned [e] -> yields (emit e) P.
Proof. intros H p. exists [e]. now simpl. Qed.

Lemma yields_raise {A : Type} (ierr : PetscErrorCode)
    (P : Ending -> list Event -> Prop) :
  P (Raised ierr) [] -> yields (@raise _ _ A ierr) P.
Proof. intros H p. exists []. simpl. now rewrite app_nil_r. Qed.

Lemma yields_exit {A : Type} (status : Z) (P : Ending -> list Event -> Prop) :
  P (Exited status) [] -> yields (@exit _ _ A status) P.
Proof. intros H p. exists []. simpl. now rewrite app_nil_r. Qed.

Lemma yields_crash {A : Type} (u : Fault) (P : Ending -> list Event -> Prop) :
  P (Crashed u) [] -> yields (fun p => @Crash _ _ A u p) P.
Proof. intros H p. exists []. simpl. now rewrite app_nil_r. Qed.

Lemma yields_chk (ierr : PetscErrorCode) (P : Ending -> list Event -> Prop) :
  (ierr <> 0 -> P (Raised ierr) []) -> (ierr = 0 -> P Returned []) ->
  yields (chk ierr) P.
Proof.
  intros Hr Ho. unfold chk. destruct (Z.eqb_spec ierr 0).
  - now apply yields_ret, Ho.
  - now apply yields_raise, Hr.
Qed.

(** A call followed by a continuation: what the call adds comes first. *)
Lemma yields_bind {A B : Type} (m : M A) (k : A -> M B)
    (P : Ending -> list Event -> Prop) :
  yields m (fun e t =>
              match e with
              | Returned => forall a, yields (k a) (fun e' t' => P e' (t ++ t'))
              | _ => P e t
              end) ->
  yields (bind m k) P.
Proof.
  intros Hm p. destruct (Hm p) as (t & Ht & HP). unfold bind.
  destruct (m p) as [a p1|ierr p1|st p1|u p1]; simpl in *.
  - destruct (HP a p1) as (t' & Ht' & HP').
    exists (t ++ t'). split; [|exact HP'].
    now rewrite Ht', Ht, app_assoc.
  - now exists t.
  - now exists t.
  - now exists t.
Qed.

Lemma yields_weaken {A : Type} (m : M A) (Q P : Ending -> list Event -> Prop) :
  yields m Q -> (forall e t, Q e t -> P e t) -> yields m P.
Proof.
  intros Hm HQP p. destruct (Hm p) as (t & Ht & HQ).
  exists t. split; [exact Ht | now apply HQP].
Qed.

(** A call whose effect [Q] is known, followed by a continuation. *)
Lemma yields_seq {A B : Type} (m : M A) (k : A -> M B)
    (Q P : Ending -> list Event -> Prop) :
  yields m Q ->
  (forall e t, Q e t ->
     match e with
     | Returned => forall a, yields (k a) (fun e' t' => P e' (t ++ t'))
     | _ => P e t
     end) ->
  yields (bind m k) P.
Proof.
  intros Hm HQ. apply yields_bind. apply (yields_weaken m Q); assumption.
Qed.

(** The three reporting calls. *)
Lemma yields_PetscLogStagePush (st : PetscLogStage) :
  yields (PetscLogStagePush st) (reports (StagePush st)).
Proof.
  intros p. rewrite PetscLogStagePush_run.
  destruct (Z.eqb_spec (PetscLogStagePush_ext (trace p) st) 0) as [Hz|Hnz].
  - exists [StagePush st]. now split.
  - exists []. simpl. rewrite app_nil_r. repeat split; [exact Hnz|].
    intros (Hpush & _). apply Hnz, Hpush.
Qed.

Lemma yields_PetscLogStagePop :
  yields PetscLogStagePop (reports StagePop).
Proof.
  intros p. rewrite PetscLogStagePop_run.
  destruct (Z.eqb_spec (PetscLogStagePop_ext (trace p)) 0) as [Hz|Hnz].
  - exists [StagePop]. now split.
  - exists []. simpl. rewrite app_nil_r. repeat split; [exact Hnz|].
    intros (_ & Hpop & _). apply Hnz, Hpop.
Qed.

Lemma yields_PetscPrintf (before after : string) (n : Z) :
  yields (PetscPrintf before n after)
    (reports (Printed (before ++ decimal n ++ after))).
Proof.
  intros p. rewrite PetscPrintf_run. cbv zeta.
  destruct (Z.eqb_spec
              (PetscPrintf_ext (trace p) (before ++ decimal n ++ after)) 0)
    as [Hz|Hnz].
  - eexists. split; [reflexivity|]. reflexivity.
  - exists []. simpl. rewrite app_nil_r. repeat split; [exact Hnz|].
    intros (_ & _ & Hprint). apply Hnz, Hprint.
Qed.
End YieldsRules.

Ltac yields_auto :=
  repeat first
    [ apply yields_bind
    | apply yields_ret | apply yields_gets | apply yields_modify
    | apply yields_history
    | apply yields_emit | apply yields_raise | apply yields_exit
    | apply yields_crash
    | apply yields_chk; intros ?
    | match goal with
      | |- yields (match ?x with _ => _ end) _ => destruct x eqn:?
      end
    | progress intros ].

Ltac unfold_petsc :=
  cbv beta zeta delta
    [VecWAXPY VecPointwiseMult VecScale MatMult MatMultAdd KSPSolve
     KSPGetConvergedReason enter get_vec get_mat get_ksp refresh_local].

Ltac error_code :=
  first [ assumption | discriminate
        | unfold PETSC_ERR_SUP, PETSC_ERR_ARG_SIZ, PETSC_ERR_ARG_IDN,
            PETSC_ERR_ARG_INCOMP, PETSC_ERR_ARG_NULL; lia ].

Ltac quiet_auto :=
  unfold_petsc; yields_auto;
  cbv beta; simpl; repeat split; try reflexivity; error_code.

Section StageFacts.
Context {F : Scalar} {E : External F} {Rep : Reporting F}
  {I : InlineSources F E}.

Lemma quiet_calculateExplicitTerms : yields calculateExplicitTerms quiet.
Proof. unfold calculateExplicitTerms. quiet_auto. Qed.

Lemma quiet_updateBoundaryGhosts : yields updateBoundaryGhosts quiet.
Proof. unfold updateBoundaryGhosts. quiet_auto. Qed.

Lemma quiet_generateBC1 : yields generateBC1 quiet.
Proof. unfold generateBC1. quiet_auto. Qed.

Lemma quiet_generateR2 : yields generateR2 quiet.
Proof. unfold generateR2. quiet_auto. Qed.

Lemma quiet_generateRHS1 : yields generateRHS1 quiet.
Proof. unfold generateRHS1. quiet_auto. Qed.

Lemma quiet_generateRHS2 : yields generateRHS2 quiet.
Proof. unfold generateRHS2. quiet_auto. Qed.

Lemma quiet_projectionStep : yields projectionStep quiet.
Proof. unfold projectionStep. quiet_auto. Qed.

Lemma yields_timeStep_incr :
  yields timeStep_incr
    (fun e t => t = [] /\ (e = Returned \/ e = Crashed SignedOverflow)).
Proof.
  intros p. exists []. rewrite app_nil_r.
  unfold timeStep_incr, bind, gets, modify, PetscInt_incr, PetscInt_add.
  simpl. destruct (PetscInt_range (timeStep (this p) + 1)); simpl; auto.
Qed.

(** Closes a goal [solve_ending k e (t1 ++ ... ++ tn)] or
    [stepTime_ending e (t1 ++ ... ++ tn)] from what is known of the
    pieces. *)
Ltac ending_side :=
  cbv beta; unfold stepTime_ending, solve_ending, quiet, reports in *;
  repeat match goal with
         | H : _ /\ _ |- _ => destruct H
         | H : exists _, _ |- _ => destruct H
         | H : False |- _ => contradiction
         end;
  subst;
  rewrite ?stage_depth_app, ?printed_app;
  repeat match goal with
         | H : stage_depth _ = _ |- _ => rewrite H
         | H : printed _ = _ |- _ => rewrite H
         end;
  cbn [stage_depth printed app];
  repeat split; try reflexivity; try assumption; try lia;
  try solve
    [ intros Hall;
      repeat match goal with
             | H : ~ reporting_succeeds |- _ => contradiction (H Hall)
             | H : reporting_succeeds -> _ |- _ => specialize (H Hall)
             end;
      cbn [stage_depth]; lia
    | exists K_ksp1; eexists; split; [eassumption | reflexivity]
    | exists K_ksp2; eexists; split; [eassumption | reflexivity]
    | eexists; split; [eassumption | reflexivity] ].

Ltac step_known lemma :=
  eapply yields_seq; [apply lemma|];
  intros [| ? | ? | ?] ? ?; [intros _ | ending_side ..].

Ltac step_emit :=
  apply yields_bind, yields_emit; intros _.

Ltac destruct_innermost_goal :=
  match goal with
  | |- context [match ?x with _ => _ end] =>
      lazymatch x with
      | context [match _ with _ => _ end] => fail
      | _ => destruct x eqn:?
      end
  end.

(** One solve, by cases on what it finds: the handles, the error codes and
    the sign of the reason. *)
Ltac run_solve :=
  cbv beta zeta delta
    [solveIntermediateVelocity solvePoissonSystem KSPSolve
     KSPGetConvergedReason PetscLogStagePush PetscLogStagePop PetscPrintf
     history enter get_vec get_ksp bind gets modify emit chk ret raise exit];
  simpl;
  repeat (destruct_innermost_goal; simpl);
  (eexists; split; [rewrite <- ?app_assoc; reflexivity|]);
  simpl; repeat split; try reflexivity;
  try solve
    [ error_code
    | apply Z.eqb_neq; assumption
    | intros (Hpush & Hpop & Hprint);
      repeat match goal with
             | H : (_ =? 0) = false |- _ =>
                 first [ rewrite Hpush in H | rewrite Hpop in H
                       | rewrite Hprint in H ];
                 discriminate H
             end
    | eexists; split; [apply Z.ltb_lt; eassumption | reflexivity] ].

Lemma yields_solveIntermediateVelocity :
  yields solveIntermediateVelocity (solve_ending K_ksp1).
Proof. intros p. run_solve. Qed.

Lemma yields_solvePoissonSystem :
  yields solvePoissonSystem (solve_ending K_ksp2).
Proof. intros p. run_solve. Qed.

Lemma yields_stepTime : yields stepTime stepTime_ending.
Proof.
  unfold stepTime.
  step_known (yields_PetscLogStagePush stageRHSVelocitySystem).
  step_known quiet_calculateExplicitTerms.
  step_known quiet_updateBoundaryGhosts.
  step_known quiet_generateBC1.
  step_known quiet_generateRHS1.
  step_known yields_PetscLogStagePop.
  step_known yields_solveIntermediateVelocity.
  step_known (yields_PetscLogStagePush stageRHSPoissonSystem).
  step_known quiet_generateR2.
  step_known quiet_generateRHS2.
  step_known yields_PetscLogStagePop.
  step_known yields_solvePoissonSystem.
  step_known (yields_PetscLogStagePush stageProjectionStep).
  step_known quiet_projectionStep.
  step_known yields_PetscLogStagePop.
  eapply yields_seq; [apply yields_timeStep_incr|].
  intros e tlast [-> [-> | ->]]; [intros _; apply yields_ret|]; ending_side.
Qed.

(** Provided no call of the profiler and no call of [PetscPrintf] fails:
    [stepTime] leaves the profiler's stage stack as it found it whenever it
    returns, exits or overflows; only an error return (whose code is never
    0) leaves a stage pushed, and then exactly one. *)
Theorem stepTime_stage_balance (p : Process) :
  reporting_succeeds ->
  match stepTime p with
  | Raise ierr p' =>
      ierr <> 0 /\ stage_depth (trace p') = stage_depth (trace p) + 1
  | r => stage_depth (trace (final r)) = stage_depth (trace p)
  end.
Proof.
  intros Hall.
  destruct (yields_stepTime p) as (t & Htrace & Hending).
  destruct (stepTime p) as [[] p' | ierr p' | status p' | u p'];
    simpl in Htrace, Hending |- *; rewrite Htrace, stage_depth_app.
  - destruct Hending as [-> _]. lia.
  - destruct Hending as (Hierr & _ & Hdepth).
    rewrite (Hdepth Hall). split; [exact Hierr | lia].
  - destruct Hending as (_ & -> & _). lia.
  - destruct Hending as (_ & -> & _). lia.
Qed.

(** The lines [stepTime] writes through [PetscPrintf], and how it stops the
    process: it writes none unless it exits; it exits only with status 0,
    after writing exactly one line, the one that reports a negative reason
    for one of the two systems. *)
Theorem stepTime_output (p : Process) :
  match stepTime p with
  | Ok _ p' | Raise _ p' | Crash _ p' =>
      printed (trace p') = printed (trace p)
  | Exit status p' =>
      status = 0
      /\ exists (k : KSPId) (reason : KSPConvergedReason),
           reason < 0
           /\ printed (trace p')
              = printed (trace p) ++ [diverged_line (system_name k) reason]
  end.
Proof.
  destruct (yields_stepTime p) as (t & Htrace & Hending).
  destruct (stepTime p) as [[] p' | ierr p' | status p' | u p'];
    simpl in Htrace, Hending |- *; rewrite Htrace, printed_app.
  - destruct Hending as [_ ->]. apply app_nil_r.
  - destruct Hending as (_ & -> & _). apply app_nil_r.
  - destruct Hending as (Hstatus & _ & k & reason & Hreason & ->).
    split; [exact Hstatus|]. now exists k, reason.
  - destruct Hending as (_ & _ & ->). apply app_nil_r.
Qed.
End StageFacts.


(* ================================================================== *)
(** * [finalize]: proofs *)


Section FinalizeFacts.
Context {F : Scalar} {E : External F} {T : Teardown F E}.
Local Open Scope petsc_scope.

Lemma finalize_unfold : finalize = destroy_all finalize_order write_summary.
Proof. reflexivity. Qed.

Lemma object_set_null_same (h : Handle) (s : NavierStokesSolver) :
  object h (set_null h s) = None.
Proof.
  destruct h; simpl.
  - now destruct (DMId_eq_dec d d).
  - now destruct (VecId_eq_dec v v).
  - now destruct (MatId_eq_dec m m).
  - now destruct (KSPId_eq_dec k k).
Qed.

Lemma object_set_null_other (h h' : Handle) (s : NavierStokesSolver) :
  h <> h' -> object h' (set_null h s) = object h' s.
Proof.
  intros Hne. destruct h, h'; simpl; try reflexivity.
  - destruct (DMId_eq_dec d d0); [congruence | reflexivity].
  - destruct (VecId_eq_dec v v0); [congruence | reflexivity].
  - destruct (MatId_eq_dec m m0); [congruence | reflexivity].
  - destruct (KSPId_eq_dec k k0); [congruence | reflexivity].
Qed.

Lemma is_set_object (h : Handle) (s : NavierStokesSolver) :
  is_set h s = false <-> object h s = None.
Proof.
  destruct h; simpl;
    [destruct (dms s d) | destruct (vecs s v) | destruct (mats s m)
    | destruct (ksps s k)]; simpl; split; congruence.
Qed.

(** One guarded destroy: the three ways it ends. *)
Lemma destroy_if_set_cases (h : Handle) (p : Process) :
  (object h (this p) = None /\ destroy_if_set h p = Ok tt p)
  \/ (object h (this p) <> None /\ destroy_code h (this p) = 0
      /\ destroy_if_set h p
         = Ok tt {| this := set_null h (this p); trace := trace p |})
  \/ (object h (this p) <> None /\ destroy_code h (this p) <> 0
      /\ destroy_if_set h p = Raise (destroy_code h (this p)) p).
Proof.
  unfold destroy_if_set, Destroy, bind, gets, chk, modify, ret, raise.
  destruct (is_set h (this p)) eqn:Hset.
  - assert (Hobj : object h (this p) <> None).
    { intros Hnone. apply is_set_object in Hnone. congruence. }
    destruct (Z.eqb_spec (destroy_code h (this p)) 0) as [Hz|Hnz].
    + right; left. now rewrite Hz.
    + right; right. auto.
  - left. split; [now apply is_set_object | reflexivity].
Qed.

Lemma write_summary_same (p : Process) :
  final (write_summary p) = p
  /\ match write_summary p with
     | Ok _ _ => True
     | Raise ierr _ => ierr <> 0
     | _ => False
     end.
Proof.
  unfold write_summary, bind, gets, chk, ret, raise. cbv zeta.
  repeat match goal with
         | |- context [?x =? 0] => destruct (Z.eqb_spec x 0)
         end; simpl; auto.
Qed.

Lemma In_dec_Handle (h : Handle) (l : list Handle) : {In h l} + {~ In h l}.
Proof. apply in_dec, Handle_eq_dec. Qed.

(** The destroy phase releases a leading part [done] of its list: the
    handles of [done] are null afterwards, every other handle refers to what
    it referred to, and nothing else has changed.  Either the whole list is
    done and the continuation [k] runs, or the first handle of the rest made
    its destroy routine fail. *)
Lemma destroy_all_prefix (k : M unit) (l : list Handle) :
  forall p, exists (done rest : list Handle) (p1 : Process),
    l = done ++ rest
    /\ (forall h, In h done -> object h (this p1) = None)
    /\ (forall h, ~ In h done -> object h (this p1) = object h (this p))
    /\ kept_by_finalize p1 = kept_by_finalize p
    /\ ((rest = [] /\ destroy_all l k p = k p1)
        \/ (exists h rest' ierr,
              rest = h :: rest' /\ ierr <> 0
              /\ ierr = destroy_code h (this p1)
              /\ destroy_all l k p = Raise ierr p1)).
Proof.
  induction l as [|h l IH]; intros p.
  - exists [], [], p. repeat split; auto. now intros h [].
  - change (destroy_all (h :: l) k) with (destroy_if_set h ;; destroy_all l k).
    unfold bind.
    destruct (destroy_if_set_cases h p)
      as [[Hnull ->] | [(Hobj & Hcode & ->) | (Hobj & Hcode & ->)]].
    + destruct (IH p) as (done & rest & p1 & -> & Hdone & Hrest & Hkept & Hend).
      exists (h :: done), rest, p1. split; [reflexivity|].
      split; [|split; [|split; [exact Hkept | exact Hend]]].
      * intros h' [<-|Hin]; [|now apply Hdone].
        destruct (In_dec_Handle h done) as [Hin|Hnin]; [now apply Hdone|].
        now rewrite (Hrest h Hnin).
      * intros h' Hnin. apply Hrest. intros Hin. apply Hnin. now right.
    + destruct (IH {| this := set_null h (this p); trace := trace p |})
        as (done & rest & p1 & -> & Hdone & Hrest & Hkept & Hend).
      exists (h :: done), rest, p1. split; [reflexivity|].
      split; [|split; [|split; [exact Hkept | exact Hend]]].
      * intros h' [<-|Hin]; [|now apply Hdone].
        destruct (In_dec_Handle h done) as [Hin|Hnin]; [now apply Hdone|].
        rewrite (Hrest h Hnin). apply object_set_null_same.
      * intros h' Hnin.
        assert (Hne : h <> h') by (intros <-; apply Hnin; now left).
        rewrite Hrest by (intros Hin; apply Hnin; now right).
        simpl. now apply object_set_null_other.
    + exists [], (h :: l), p. repeat split; auto.
      * now intros h' [].
      * right. exists h, l, (destroy_code h (this p)). auto.
Qed.

Lemma finalize_order_complete (h : Handle) : In h finalize_order.
Proof.
  destruct h as [[]|[]|[]|[]]; unfold finalize_order;
    repeat ((left; reflexivity) || right).
Qed.

Lemma object_None (s : NavierStokesSolver) :
  (forall h, object h s = None) ->
  (forall d, dms s d = None) /\ (forall v, vecs s v = None)
  /\ (forall m, mats s m = None) /\ (forall k, ksps s k = None).
Proof.
  intros Hall. repeat split.
  - intros d. specialize (Hall (HDM d)). simpl in Hall.
    now destruct (dms s d).
  - intros v. specialize (Hall (HVec v)). simpl in Hall.
    now destruct (vecs s v).
  - intros m. specialize (Hall (HMat m)). simpl in Hall.
    now destruct (mats s m).
  - intros k. specialize (Hall (HKSP k)). simpl in Hall.
    now destruct (ksps s k).
Qed.

(** After a [finalize] that returns normally every [DM], [Vec], [Mat] and
    [KSP] handle of the solver is [PETSC_NULL]; the step counter, the
    parameters, the case folder and the trace are as before, and so is [pc2],
    which [finalize] never resets. *)
Theorem finalize_releases_every_handle (p p' : Process) :
  finalize p = Ok tt p' ->
  (forall d, dms (this p') d = None)
  /\ (forall v, vecs (this p') v = None)
  /\ (forall m, mats (this p') m = None)
  /\ (forall k, ksps (this p') k = None)
  /\ timeStep (this p') = timeStep (this p)
  /\ simParams (this p') = simParams (this p)
  /\ caseFolder (this p') = caseFolder (this p)
  /\ pc2 (this p') = pc2 (this p)
  /\ trace p' = trace p.
Proof.
  intros Hrun. rewrite finalize_unfold in Hrun.
  destruct (destroy_all_prefix write_summary finalize_order p)
    as (done & rest & p1 & Horder & Hdone & _ & Hkept & Hend).
  destruct Hend as [[-> Hk] | (h & rest' & ierr & _ & _ & _ & Hk)];
    rewrite Hk in Hrun; [|discriminate].
  rewrite app_nil_r in Horder. subst done.
  destruct (write_summary_same p1) as [Hsame _].
  rewrite Hrun in Hsame. simpl in Hsame. subst p'.
  unfold kept_by_finalize in Hkept. inversion Hkept.
  destruct (object_None (this p1)) as (Hd & Hv & Hm & Hksp).
  { intros h. apply Hdone, finalize_order_complete. }
  repeat split; auto.
Qed.

(** A [finalize] that fails has released a leading part of its list and
    nothing else: the handles before the one whose destroy routine failed
    are null, that handle and every later one refer to what they referred
    to, and the error code returned is not 0.  A failure of the viewer comes
    after the whole list.  [finalize] never ends the process. *)
Theorem finalize_failure_releases_prefix (p : Process) :
  exists done rest : list Handle,
    finalize_order = done ++ rest
    /\ (forall h, In h done -> object h (this (final (finalize p))) = None)
    /\ (forall h, ~ In h done ->
          object h (this (final (finalize p))) = object h (this p))
    /\ kept_by_finalize (final (finalize p)) = kept_by_finalize p
    /\ match finalize p with
       | Ok _ _ => rest = []
       | Raise ierr _ =>
           ierr <> 0
           /\ forall h rest', rest = h :: rest' ->
                ierr = destroy_code h (this p) /\ ~ In h done
       | Exit _ _ | Crash _ _ => False
       end.
Proof.
  rewrite finalize_unfold.
  destruct (destroy_all_prefix write_summary finalize_order p)
    as (done & rest & p1 & Horder & Hdone & Hrest & Hkept & Hend).
  exists done, rest. split; [exact Horder|].
  destruct Hend as [[-> Hk] | (h & rest' & ierr & -> & Hnz & Hcode & Hk)];
    rewrite Hk.
  - destruct (write_summary_same p1) as [Hsame Hend]. rewrite Hsame.
    do 3 (split; [assumption|]).
    destruct (write_summary p1); try contradiction; [reflexivity|].
    split; [exact Hend | discriminate].
  - simpl. do 3 (split; [assumption|]).
    split; [exact Hnz|].
    intros h0 rest0 Heq. inversion Heq; subst h0 rest0.
    assert (Hnin : ~ In h done).
    { intros Hin. apply Hnz. rewrite Hcode.
      specialize (Hdone h Hin).
      destruct h; simpl in *;
        [destruct (dms (this p1) d) | destruct (vecs (this p1) v)
        | destruct (mats (this p1) m) | destruct (ksps (this p1) k)];
        simpl in Hdone; congruence. }
    split; [|exact Hnin].
    rewrite Hcode.
    specialize (Hrest h Hnin).
    destruct h; simpl in *;
      [destruct (dms (this p1) d), (dms (this p) d)
      | destruct (vecs (this p1) v), (vecs (this p) v)
      | destruct (mats (this p1) m), (mats (this p) m)
      | destruct (ksps (this p1) k), (ksps (this p) k)];
      simpl in Hrest; congruence.
Qed.

Lemma destroy_all_nothing_set (k : M unit) (l : list Handle) (p : Process) :
  (forall h, object h (this p) = None) -> destroy_all l k p = k p.
Proof.
  intros Hnull. induction l as [|h l IH]; [reflexivity|].
  change (destroy_all (h :: l) k) with (destroy_if_set h ;; destroy_all l k).
  unfold bind.
  destruct (destroy_if_set_cases h p)
    as [[_ ->] | [(Hobj & _) | (Hobj & _)]];
    [exact IH | now destruct (Hobj (Hnull h)) ..].
Qed.

(** A second [finalize] destroys nothing.  On the solver a [finalize] that
    returned 0 leaves, every guard of the list finds [PETSC_NULL]: the 32
    guarded destroy statements do nothing, whatever comes after them, so the
    call is the writing of the performance summary alone.  Whether that
    returns 0 is up to the viewer calls; however the call ends, the solver
    is left as it is. *)
Theorem finalize_twice_destroys_nothing (p p' : Process) :
  finalize p = Ok tt p' ->
  (forall h, In h finalize_order -> is_set h (this p') = false)
  /\ (forall k : M unit, destroy_all finalize_order k p' = k p')
  /\ finalize p' = write_summary p'
  /\ final (finalize p') = p'.
Proof.
  intros Hrun. rewrite finalize_unfold in *.
  destruct (destroy_all_prefix write_summary finalize_order p)
    as (done & rest & p1 & Horder & Hdone & _ & _ & Hend).
  destruct Hend as [[-> Hk] | (h & rest' & ierr & _ & _ & _ & Hk)];
    rewrite Hk in Hrun; [|discriminate].
  rewrite app_nil_r in Horder. subst done.
  destruct (write_summary_same p1) as [Hsame _].
  rewrite Hrun in Hsame. simpl in Hsame. subst p'.
  assert (Hnull : forall h, object h (this p1) = None).
  { intros h. apply Hdone, finalize_order_complete. }
  split.
  { intros h _. specialize (Hnull h).
    destruct h as [d|v|m|k]; simpl in *.
    - now destruct (dms (this p1) d).
    - now destruct (vecs (this p1) v).
    - now destruct (mats (this p1) m).
    - now destruct (ksps (this p1) k). }
  split; [intros k; now apply destroy_all_nothing_set|].
  rewrite (destroy_all_nothing_set write_summary finalize_order p1 Hnull).
  split; [reflexivity|].
  apply write_summary_same.
Qed.

(** A solver that is finalized without having been initialized: every
    handle the constructor set is null, so nothing is released, except
    [lambda], which the constructor leaves as it was.  With a null [lambda]
    [finalize] only writes the summary; a [lambda] that is not null is given
    to [VecDestroy], and when that fails its error code is the result. *)
Theorem finalize_after_constructor (directory : string)
    (cartesianMesh : CartesianMesh) (flowDescription : FlowDescription)
    (simulationParameters : SimulationParameters) (t : list Event) :
  let fresh lambda0 :=
    {| this := NavierStokesSolver_new directory cartesianMesh flowDescription
                 simulationParameters lambda0;
       trace := t |} in
  finalize (fresh None) = write_summary (fresh None)
  /\ (forall x : Vec,
        VecDestroy_ext x <> 0 ->
        finalize (fresh (Some x)) = Raise (VecDestroy_ext x) (fresh (Some x)))
  /\ (forall x : Vec,
        VecDestroy_ext x = 0 ->
        final (finalize (fresh (Some x)))
        = {| this := set_null (HVec V_lambda) (this (fresh (Some x)));
             trace := t |}).
Proof.
  cbv zeta. split; [reflexivity|]. split.
  - intros x Hfail.
    unfold finalize, destroy_if_set, Destroy, bind, gets, chk, modify.
    simpl. now destruct (Z.eqb_spec (VecDestroy_ext x) 0).
  - intros x Hok.
    unfold finalize, destroy_if_set, Destroy, bind, gets, chk, modify.
    simpl. rewrite Hok. simpl.
    repeat match goal with
           | |- context [?c =? 0] => destruct (Z.eqb_spec c 0)
           end; reflexivity.
Qed.
End FinalizeFacts.


(* ================================================================== *)
(** * [generateQTBNQ] and the constraint: proofs *)


Section ProductFacts.
Context {F : Scalar} {R : ScalarRing F}.

Add Ring scalar_ring_inst : scalar_ring.

Lemma ScalarRing_laws : ScalarLaws F.
Proof. split; intros; ring. Qed.

Lemma row_dot_nil_r (row : Vec) : row_dot row [] = scalar_zero.
Proof. now destruct row. Qed.

(** [row_dot] is linear in the row: here for rows given entry by entry. *)
Lemma row_dot_map_combination (a : PetscScalar) (f g : nat -> PetscScalar)
    (l : list nat) :
  forall x : Vec,
    row_dot (map (fun j => a * f j + g j)%sc l) x
    = (a * row_dot (map f l) x + row_dot (map g l) x)%sc.
Proof.
  induction l as [|j l IH]; intros [|xi x]; simpl; try ring.
  rewrite IH. ring.
Qed.

Lemma row_dot_map_zero (l : list nat) :
  forall x : Vec, row_dot (map (fun _ => scalar_zero) l) x = scalar_zero.
Proof.
  induction l as [|j l IH]; intros [|xi x]; simpl; try reflexivity.
  rewrite IH. ring.
Qed.

Lemma map_nth_seq (row : Vec) :
  map (fun j => nth j row scalar_zero) (seq 0 (List.length row)) = row.
Proof.
  apply nth_ext with (d := scalar_zero) (d' := scalar_zero).
  - now rewrite length_map, length_seq.
  - intros i Hi. rewrite length_map, length_seq in Hi.
    rewrite (nth_indep _ _ (nth 0 row scalar_zero))
      by (rewrite length_map, length_seq; exact Hi).
    change (nth 0 row scalar_zero)
      with ((fun j => nth j row scalar_zero) 0%nat).
    rewrite map_nth, seq_nth by exact Hi. reflexivity.
Qed.

(** Row [r] of [A] times the columns of [B], applied to [x], is [r] applied to
    [B x]. *)
Lemma row_dot_mat_mul (k : nat) (x : Vec) :
  forall (B : Mat) (r : Vec),
    forallb (fun row => (List.length row =? k)%nat) B = true ->
    row_dot (map (fun j => row_dot r (mat_col j B)) (seq 0 k)) x
    = row_dot r (mat_vec B x).
Proof.
  induction B as [|b B IH]; intros r Hshape.
  - simpl. rewrite row_dot_nil_r.
    apply row_dot_map_zero.
  - destruct r as [|a r].
    + simpl. apply row_dot_map_zero.
    + simpl in Hshape. apply andb_true_iff in Hshape.
      destruct Hshape as [Hb HB]. apply Nat.eqb_eq in Hb.
      simpl mat_col. simpl mat_vec. simpl row_dot.
      rewrite (row_dot_map_combination a (fun j => nth j b scalar_zero)
                 (fun j => row_dot r (mat_col j B))).
      rewrite <- Hb at 1. rewrite map_nth_seq.
      now rewrite (IH r HB).
Qed.

Lemma mat_vec_mat_mul (A B : Mat) (x : Vec) :
  rectangular B = true ->
  mat_vec (mat_mul A B) x = mat_vec A (mat_vec B x).
Proof.
  intros Hrect. unfold rectangular, mat_shape in Hrect.
  apply andb_true_iff in Hrect. destruct Hrect as [_ Hcols].
  unfold mat_mul, mat_vec. rewrite map_map. apply map_ext.
  intros r. now apply row_dot_mat_mul.
Qed.

Lemma mat_mul_shape (A B : Mat) :
  mat_shape (mat_mul A B) (List.length A) (mat_width B) = true.
Proof.
  unfold mat_shape, mat_mul. rewrite length_map, Nat.eqb_refl. simpl.
  apply forallb_forall. intros row Hrow.
  apply in_map_iff in Hrow. destruct Hrow as (r & <- & _).
  rewrite length_map, length_seq. apply Nat.eqb_refl.
Qed.

Lemma row_dot_sub (r : Vec) :
  forall x y : Vec,
    List.length x = List.length y ->
    row_dot r (vec_sub x y) = (row_dot r x - row_dot r y)%sc.
Proof.
  induction r as [|a r IH]; intros [|xi x] [|yi y] Hlen;
    simpl in *; try discriminate; try ring.
  unfold vec_sub, zip_with in *. simpl.
  rewrite IH by lia. ring.
Qed.

Lemma mat_vec_sub (A : Mat) (x y : Vec) :
  List.length x = List.length y ->
  mat_vec A (vec_sub x y) = vec_sub (mat_vec A x) (mat_vec A y).
Proof.
  intros Hlen. unfold mat_vec.
  induction A as [|r A IH]; [reflexivity|].
  simpl. rewrite row_dot_sub by exact Hlen.
  unfold vec_sub, zip_with in *. simpl. now rewrite IH.
Qed.

Lemma vec_sub_sub_cancel (a : Vec) :
  forall b : Vec,
    List.length a = List.length b -> vec_sub a (vec_sub a b) = b.
Proof.
  induction a as [|ai a IH]; intros [|bi b] Hlen;
    simpl in *; try discriminate; [reflexivity|].
  unfold vec_sub, zip_with in *. simpl.
  rewrite IH by lia. f_equal. ring.
Qed.
End ProductFacts.

Section Constraint.
Context {F : Scalar} {E : External F} {G : EventLog} {R : ScalarRing F}.

(** [generateQTBNQ] makes [QTBNQ] the product of [QT] and [BNQ]: when it
    returns normally, [QTBNQ] has the rows of [QT] and the columns of [BNQ],
    applying it to a vector is applying [BNQ] and then [QT] (in exact
    arithmetic), and nothing else in the solver has changed. *)
Theorem generateQTBNQ_stores_product (p p' : Process) (QT BNQ : Mat) :
  mats (this p) M_QT = Some QT ->
  mats (this p) M_BNQ = Some BNQ ->
  rectangular BNQ = true ->
  generateQTBNQ p = Ok tt p' ->
  mats (this p') M_QTBNQ = Some (mat_mul QT BNQ)
  /\ mat_shape (mat_mul QT BNQ) (List.length QT) (mat_width BNQ) = true
  /\ (forall x : Vec,
        mat_vec (mat_mul QT BNQ) x = mat_vec QT (mat_vec BNQ x))
  /\ (forall m, m <> M_QTBNQ -> mats (this p') m = mats (this p) m)
  /\ vecs (this p') = vecs (this p)
  /\ ksps (this p') = ksps (this p)
  /\ timeStep (this p') = timeStep (this p)
  /\ trace p' = trace p.
Proof.
  intros HQT HBNQ Hrect Hrun.
  unfold generateQTBNQ, MatMatMult, get_mat, bind, gets, chk, modify, ret,
    raise in Hrun.
  cbv zeta in Hrun.
  repeat (simpl in Hrun;
          first [ rewrite HQT in Hrun
                | rewrite HBNQ in Hrun
                | match type of Hrun with
                  | context [if ?c then _ else _] =>
                      lazymatch c with
                      | context [if _ then _ else _] => fail
                      | _ => destruct c; try discriminate Hrun
                      end
                  end ]).
  inversion Hrun; subst p'; clear Hrun. simpl.
  split; [reflexivity|].
  split; [apply mat_mul_shape|].
  split; [intros x; now apply mat_vec_mat_mul|].
  split; [|repeat split].
  intros m Hm. destruct m; solve [reflexivity | congruence].
Qed.

(** The projection meets the constraint, in exact arithmetic.  Let [QTBNQ]
    be the product [generateQTBNQ] stores and [rhs2 = QT qStar - r2] the
    right-hand side [generateRHS2] assembles.  If [lambda] solves
    [QTBNQ lambda = rhs2], then [projectionStep] returns a [q] with
    [QT q = r2]: the projected fluxes have the prescribed divergence. *)
Theorem projectionStep_meets_constraint (p : Process) (QT BNQ : Mat)
    (lambda temp qStar q r2 : Vec) (n nl : nat) :
  mats (this p) M_QT = Some QT ->
  mats (this p) M_BNQ = Some BNQ ->
  vecs (this p) V_lambda = Some lambda ->
  vecs (this p) V_temp = Some temp ->
  vecs (this p) V_qStar = Some qStar ->
  vecs (this p) V_q = Some q ->
  mat_shape QT nl n = true ->
  mat_shape BNQ n nl = true ->
  List.length lambda = nl ->
  List.length temp = n ->
  List.length qStar = n ->
  List.length q = n ->
  List.length r2 = nl ->
  mat_vec (mat_mul QT BNQ) lambda = vec_sub (mat_vec QT qStar) r2 ->
  exists (p' : Process) (q' : Vec),
    projectionStep p = Ok tt p'
    /\ vecs (this p') V_q = Some q'
    /\ mat_vec QT q' = r2.
Proof.
  intros HQT HBNQ Hlambda Htemp HqStar Hq SQT SBNQ Llambda Ltemp LqStar Lq Lr2
    Hsolves.
  destruct (@projectionStep_Ok F E ScalarRing_laws p BNQ lambda temp qStar q)
    as (p' & Hrun & Hq'); try assumption; try congruence.
  exists p', (vec_sub qStar (mat_vec BNQ lambda)).
  split; [exact Hrun|]. split; [exact Hq'|].
  pose proof (mat_shape_rows _ _ _ SBNQ) as LBNQ.
  pose proof (mat_shape_rows _ _ _ SQT) as LQT.
  rewrite mat_vec_sub by (rewrite mat_vec_length; congruence).
  rewrite <- mat_vec_mat_mul.
  - rewrite Hsolves. apply vec_sub_sub_cancel.
    rewrite mat_vec_length. congruence.
  - unfold rectangular.
    unfold mat_shape in *. apply andb_true_iff in SBNQ.
    destruct SBNQ as [Hrows Hcols]. rewrite Nat.eqb_refl. simpl.
    destruct BNQ as [|b B]; [reflexivity|].
    simpl in Hcols |- *. apply andb_true_iff in Hcols.
    destruct Hcols as [Hb HB]. apply Nat.eqb_eq in Hb. rewrite Hb.
    now rewrite Nat.eqb_refl.
Qed.
End Constraint.


(* ================================================================== *)
(** * [MeshBase]: proofs *)


Tactic Notation "mesh_simpl" := cbn -[nth_error nth Mesh.list_set Z.eqb].
Tactic Notation "mesh_simpl" "in" hyp(H) :=
  cbn -[nth_error nth Mesh.list_set Z.eqb] in H.

(* The members of a mesh after a chain of assignments, each one computed on
   demand. *)
Ltac mesh_fields :=
  lazy beta iota delta
    [Mesh.on_self Mesh.clear_ranks Mesh.clear_comm Mesh.clear_partition
     Mesh.clear_description Mesh.set_UPack Mesh.set_da
     Mesh.self Mesh.destroyed
     Mesh.dim Mesh.min Mesh.max Mesh.n Mesh.periodic Mesh.coord Mesh.dL
     Mesh.UN Mesh.pN Mesh.info Mesh.da Mesh.nProc Mesh.bg Mesh.ed Mesh.m
     Mesh.UNLocal Mesh.pNLocal Mesh.UPack Mesh.comm Mesh.mpiSize
     Mesh.mpiRank].

Section MeshFacts.
Context {F : Scalar} {E : External F} {T : Teardown F E}.

Lemma list_set_length {A : Type} (l : list A) :
  forall (f : nat) (x : A), List.length (Mesh.list_set f x l) = List.length l.
Proof.
  induction l as [|y l IH]; intros [|f] x; simpl; try reflexivity.
  now rewrite IH.
Qed.

Lemma list_set_same {A : Type} (l : list A) :
  forall (f : nat) (x : A),
    (f < List.length l)%nat -> nth_error (Mesh.list_set f x l) f = Some x.
Proof.
  induction l as [|y l IH]; intros [|f] x Hf; simpl in *; try lia;
    [reflexivity|].
  apply IH. lia.
Qed.

Lemma list_set_other {A : Type} (l : list A) :
  forall (f g : nat) (x : A),
    f <> g -> nth_error (Mesh.list_set f x l) g = nth_error l g.
Proof.
  induction l as [|y l IH]; intros [|f] [|g] x Hfg; simpl;
    try reflexivity; try congruence.
  apply IH. congruence.
Qed.

Lemma nth_error_handle (l : list (option DM)) (f : nat) (h : option DM) :
  nth_error l f = Some h -> nth f l None = h.
Proof. intros H. now apply nth_error_nth. Qed.

Lemma nth_error_no_handle (l : list (option DM)) (f : nat) :
  nth_error l f = None -> nth f l None = None.
Proof. intros H. apply nth_overflow. now apply nth_error_None. Qed.

(** [destroy] never releases the velocity DMs.  It sets [dim] to -1 before
    the loop over [da[0..dim-1]], so the loop body never runs: whatever the
    outcome, [dim] ends as -1, every entry of [da] other than [da[3]] and
    [da[4]] is as it was, and the objects destroyed are, in order, a prefix
    of those that [da[3]], [da[4]] and [UPack] referred to. *)
Theorem destroy_skips_velocity_DMs (s : Mesh.State) :
  let b := Mesh.self s in
  let s' := Mesh.final (Mesh.destroy s) in
  Mesh.dim (Mesh.self s') = -1
  /\ (forall f, f <> 3%nat -> f <> 4%nat ->
        nth_error (Mesh.da (Mesh.self s')) f = nth_error (Mesh.da b) f)
  /\ exists done rest : list DM,
       Mesh.destroyed s' = Mesh.destroyed s ++ done
       /\ Mesh.objects [nth 3 (Mesh.da b) None; nth 4 (Mesh.da b) None;
                        Mesh.UPack b]
          = done ++ rest.
Proof.
  destruct s as [b old]. cbv zeta. simpl Mesh.self.
  assert (N3 : nth 3 (Mesh.da b) None
               = match nth_error (Mesh.da b) 3 with
                 | Some h => h
                 | None => None
                 end).
  { destruct (nth_error (Mesh.da b) 3) eqn:H;
      [now apply nth_error_handle | now apply nth_error_no_handle]. }
  assert (N4 : nth 4 (Mesh.da b) None
               = match nth_error (Mesh.da b) 4 with
                 | Some h => h
                 | None => None
                 end).
  { destruct (nth_error (Mesh.da b) 4) eqn:H;
      [now apply nth_error_handle | now apply nth_error_no_handle]. }
  rewrite N3, N4. clear N3 N4.
  unfold Mesh.destroy, Mesh.destroy_velocity_DMs.
  destruct (nth_error (Mesh.da b) 3) as [[d3|]|] eqn:H3;
    destruct (nth_error (Mesh.da b) 4) as [[d4|]|] eqn:H4;
    destruct (Mesh.UPack b) as [dU|] eqn:HU;
    unfold Mesh.DMDestroy_da, Mesh.DMDestroy_UPack, Mesh.DMDestroy;
    mesh_simpl; rewrite ?H3; mesh_simpl.
  all: repeat match goal with
       | |- context [if ?c then _ else _] =>
           lazymatch c with
           | context [if _ then _ else _] => fail
           | _ => destruct c eqn:?
           end; mesh_simpl
       | |- context [nth_error (Mesh.list_set 3 None _) 4] =>
           rewrite (list_set_other _ 3 4) by lia; rewrite ?H4; mesh_simpl
       | |- context [nth_error _ 4] => rewrite H4; mesh_simpl
       | |- context [Mesh.UPack _] => rewrite HU; mesh_simpl
       end.
  all: (split; [reflexivity|]).
  all: (split;
        [ intros f Hf3 Hf4;
          rewrite ?(list_set_other _ 4 f) by congruence;
          rewrite ?(list_set_other _ 3 f) by congruence; reflexivity |]).
  all: first
         [ exists []; eexists;
           split; [symmetry; apply app_nil_r | reflexivity]
         | eexists; eexists;
           split; [rewrite <- ?app_assoc; reflexivity | reflexivity] ].
Qed.

Lemma list_set_id {A : Type} (l : list A) :
  forall (f : nat) (x : A),
    nth_error l f = Some x -> Mesh.list_set f x l = l.
Proof.
  induction l as [|y l IH]; intros [|f] x H; simpl in *; try discriminate.
  - congruence.
  - now rewrite IH.
Qed.

Lemma destroy_Ok_inv (s s' : Mesh.State) :
  Mesh.destroy s = Mesh.Ok s' ->
  (5 <= List.length (Mesh.da (Mesh.self s)))%nat
  /\ s' = {| Mesh.self := destroyed_mesh (Mesh.self s);
             Mesh.destroyed :=
               Mesh.destroyed s
               ++ Mesh.objects [nth 3 (Mesh.da (Mesh.self s)) None;
                                nth 4 (Mesh.da (Mesh.self s)) None;
                                Mesh.UPack (Mesh.self s)] |}.
Proof.
  destruct s as [b old]. destruct b.
  unfold destroyed_mesh, Mesh.destroy, Mesh.destroy_velocity_DMs.
  mesh_fields. intros Hrun.
  assert (N3 : nth 3 da None
               = match nth_error da 3 with
                 | Some h => h
                 | None => None
                 end).
  { destruct (nth_error da 3) eqn:H;
      [now apply nth_error_handle | now apply nth_error_no_handle]. }
  assert (N4 : nth 4 da None
               = match nth_error da 4 with
                 | Some h => h
                 | None => None
                 end).
  { destruct (nth_error da 4) eqn:H;
      [now apply nth_error_handle | now apply nth_error_no_handle]. }
  rewrite N3, N4. clear N3 N4.
  assert (L : nth_error da 4 <> None -> (5 <= List.length da)%nat).
  { intros H. apply nth_error_Some in H. lia. }
  destruct (nth_error da 3) as [[d3|]|] eqn:H3;
    destruct (nth_error da 4) as [[d4|]|] eqn:H4;
    destruct UPack as [dU|];
    unfold Mesh.DMDestroy_da, Mesh.DMDestroy_UPack, Mesh.DMDestroy in Hrun;
    mesh_simpl in Hrun; rewrite ?H3 in Hrun; mesh_simpl in Hrun.
  all: repeat match type of Hrun with
       | context [if ?c then _ else _] =>
           lazymatch c with
           | context [if _ then _ else _] => fail
           | _ => destruct c eqn:?
           end; mesh_simpl in Hrun
       | context [nth_error (Mesh.list_set 3 None _) 4] =>
           rewrite (list_set_other _ 3 4) in Hrun by lia;
           rewrite ?H4 in Hrun; mesh_simpl in Hrun
       | context [nth_error _ 4] =>
           rewrite H4 in Hrun; mesh_simpl in Hrun
       end.
  all: try discriminate Hrun.
  all: (split; [apply L; discriminate|]).
  all: injection Hrun as <-.
  all: mesh_simpl.
  all: rewrite <- ?app_assoc; mesh_simpl.
  all: rewrite ?app_nil_r.
  all: try rewrite (list_set_id da 3 None H3).
  all: try rewrite (list_set_id _ 4 None)
         by (rewrite ?(list_set_other _ 3 4) by lia; exact H4).
  all: reflexivity.
Qed.

(** After a normal return of [destroy] the mesh is empty: [dim] is -1,
    every container is empty, every count is 0, [da[3]], [da[4]], [UPack]
    and the communicator are null, and exactly the objects of [da[3]],
    [da[4]] and [UPack] have been destroyed, in this order.  [da] had at
    least five entries, and the others are as they were. *)
Theorem destroy_clears_mesh (s s' : Mesh.State) :
  Mesh.destroy s = Mesh.Ok s' ->
  (5 <= List.length (Mesh.da (Mesh.self s)))%nat
  /\ Mesh.self s' = destroyed_mesh (Mesh.self s)
  /\ Mesh.destroyed s'
     = Mesh.destroyed s
       ++ Mesh.objects [nth 3 (Mesh.da (Mesh.self s)) None;
                        nth 4 (Mesh.da (Mesh.self s)) None;
                        Mesh.UPack (Mesh.self s)].
Proof.
  intros Hrun. destruct (destroy_Ok_inv s s' Hrun) as [Hlen ->].
  now repeat split.
Qed.

(** Once [destroy] has returned normally there is nothing left to release:
    a second [destroy] returns normally and changes nothing, and the
    destructor changes nothing either, whatever [PetscFinalized] answers.
    The velocity DMs [da[0]], [da[1]] and [da[2]] are still as they were
    before the first [destroy]. *)
Theorem destroy_leaves_nothing_to_release (s s' : Mesh.State)
    (PetscFinalized : PetscErrorCode * bool) :
  Mesh.destroy s = Mesh.Ok s' ->
  Mesh.destroy s' = Mesh.Ok s'
  /\ Mesh.final (Mesh.destructor PetscFinalized s') = s'
  /\ forall f, (f < 3)%nat ->
       nth_error (Mesh.da (Mesh.self s')) f
       = nth_error (Mesh.da (Mesh.self s)) f.
Proof.
  intros Hrun. destruct (destroy_Ok_inv s s' Hrun) as [Hlen ->].
  set (old := Mesh.destroyed s
              ++ Mesh.objects [nth 3 (Mesh.da (Mesh.self s)) None;
                               nth 4 (Mesh.da (Mesh.self s)) None;
                               Mesh.UPack (Mesh.self s)]).
  assert (H3 : nth_error
                 (Mesh.list_set 4 None
                    (Mesh.list_set 3 None (Mesh.da (Mesh.self s)))) 3
               = Some None).
  { rewrite (list_set_other _ 4 3) by lia.
    apply list_set_same. lia. }
  assert (H4 : nth_error
                 (Mesh.list_set 4 None
                    (Mesh.list_set 3 None (Mesh.da (Mesh.self s)))) 4
               = Some None).
  { apply list_set_same. rewrite list_set_length. lia. }
  split; [|split].
  - unfold Mesh.destroy, Mesh.destroy_velocity_DMs, Mesh.DMDestroy_da,
      Mesh.DMDestroy_UPack, Mesh.DMDestroy.
    cbn -[nth_error nth Mesh.list_set Z.eqb].
    rewrite H3. cbn -[nth_error nth Mesh.list_set Z.eqb].
    rewrite H4. reflexivity.
  - destruct PetscFinalized as [ierr finalized].
    unfold Mesh.destructor, Mesh.destroy_velocity_DMs, Mesh.DMDestroy_da,
      Mesh.DMDestroy_UPack, Mesh.DMDestroy.
    destruct (ierr =? 0); [|reflexivity].
    destruct finalized; [reflexivity|].
    cbn -[nth_error nth Mesh.list_set Z.eqb].
    rewrite H3. cbn -[nth_error nth Mesh.list_set Z.eqb].
    rewrite H4. reflexivity.
  - intros f Hf. cbn -[nth_error nth Mesh.list_set Z.eqb].
    rewrite (list_set_other _ 4 f) by lia.
    apply list_set_other. lia.
Qed.

Lemma set_da_id (b : Mesh.MeshBase) (f : nat) (x : option DM) :
  nth_error (Mesh.da b) f = Some x -> Mesh.set_da f x b = b.
Proof.
  destruct b. unfold Mesh.set_da. simpl. intros H.
  now rewrite (list_set_id _ _ _ H).
Qed.

Lemma set_UPack_id (b : Mesh.MeshBase) :
  Mesh.UPack b = None -> Mesh.set_UPack None b = b.
Proof. destruct b. unfold Mesh.set_UPack. simpl. now intros ->. Qed.

(** [DMDestroy(&da[f])] when [f] is in range and the routine does not
    fail. *)
Lemma DMDestroy_da_Ok (f : nat) (b : Mesh.MeshBase) (old : list DM)
    (h : option DM) :
  nth_error (Mesh.da b) f = Some h ->
  (forall dm, h = Some dm -> DMDestroy_ext dm = 0) ->
  Mesh.DMDestroy_da f {| Mesh.self := b; Mesh.destroyed := old |}
  = Mesh.Ok {| Mesh.self := Mesh.set_da f None b;
               Mesh.destroyed := old ++ Mesh.objects [h] |}.
Proof.
  intros Hf Hcode. unfold Mesh.DMDestroy_da, Mesh.DMDestroy.
  cbn [Mesh.self Mesh.destroyed]. rewrite Hf.
  destruct h as [dm|].
  - now rewrite (Hcode dm eq_refl).
  - rewrite (set_da_id _ _ _ Hf). simpl. now rewrite app_nil_r.
Qed.

(** [DMDestroy(&UPack)] when the routine does not fail. *)
Lemma DMDestroy_UPack_Ok (b : Mesh.MeshBase) (old : list DM) :
  (forall dm, Mesh.UPack b = Some dm -> DMDestroy_ext dm = 0) ->
  Mesh.DMDestroy_UPack {| Mesh.self := b; Mesh.destroyed := old |}
  = Mesh.Ok {| Mesh.self := Mesh.set_UPack None b;
               Mesh.destroyed := old ++ Mesh.objects [Mesh.UPack b] |}.
Proof.
  intros Hcode. unfold Mesh.DMDestroy_UPack, Mesh.DMDestroy.
  cbn [Mesh.self Mesh.destroyed].
  destruct (Mesh.UPack b) as [dm|] eqn:HU.
  - now rewrite (Hcode dm eq_refl).
  - rewrite (set_UPack_id _ HU). simpl. now rewrite app_nil_r.
Qed.

(** The objects of a list of handles, one handle at a time. *)
Lemma objects_cons (h : option DM) (l : list (option DM)) :
  Mesh.objects (h :: l) = Mesh.objects [h] ++ Mesh.objects l.
Proof. unfold Mesh.objects. simpl. now rewrite app_nil_r. Qed.

Lemma null_range_da (k : nat) :
  forall (i : nat) (b : Mesh.MeshBase) (f : nat),
    (i + k <= List.length (Mesh.da b))%nat ->
    nth_error (Mesh.da (null_range i k b)) f
    = if (i <=? f)%nat && (f <? i + k)%nat then Some None
      else nth_error (Mesh.da b) f.
Proof.
  induction k as [|k IH]; intros i b f Hlen.
  - simpl. replace (f <? i + 0)%nat with (f <? i)%nat by (f_equal; lia).
    destruct (Nat.leb_spec i f), (Nat.ltb_spec f i); simpl; try reflexivity.
    lia.
  - unfold null_range in *. simpl seq. simpl fold_left.
    rewrite IH by (simpl; rewrite list_set_length; lia).
    simpl Mesh.da.
    destruct (Nat.leb_spec (S i) f), (Nat.ltb_spec f (S i + k)),
      (Nat.leb_spec i f), (Nat.ltb_spec f (i + S k)); simpl;
      try reflexivity; try lia.
    all: first [ apply list_set_other; lia
               | assert (f = i) by lia; subst f; apply list_set_same; lia ].
Qed.

Lemma null_range_frame (k : nat) :
  forall (i : nat) (b : Mesh.MeshBase),
    List.length (Mesh.da (null_range i k b)) = List.length (Mesh.da b)
    /\ Mesh.dim (null_range i k b) = Mesh.dim b
    /\ Mesh.UPack (null_range i k b) = Mesh.UPack b
    /\ Mesh.comm (null_range i k b) = Mesh.comm b.
Proof.
  induction k as [|k IH]; intros i b; [now repeat split|].
  unfold null_range in *. simpl seq. simpl fold_left.
  destruct (IH (S i) (Mesh.set_da i None b)) as (H1 & H2 & H3 & H4).
  rewrite H1, H2, H3, H4. simpl. rewrite list_set_length. now repeat split.
Qed.

Lemma firstn_skipn_cons {A : Type} (l : list A) :
  forall (i k : nat) (x : A),
    nth_error l i = Some x ->
    firstn (S k) (skipn i l) = x :: firstn k (skipn (S i) l).
Proof.
  induction l as [|y l IH]; intros [|i] k x H; simpl in *; try discriminate.
  - congruence.
  - now apply IH.
Qed.

Lemma skipn_list_set {A : Type} (l : list A) :
  forall (i j : nat) (x : A),
    (i < j)%nat -> skipn j (Mesh.list_set i x l) = skipn j l.
Proof.
  induction l as [|y l IH]; intros [|i] [|j] x H; simpl; try reflexivity;
    try lia.
  apply IH. lia.
Qed.

(** The loop [for(f=i; f<i+k; ++f) DMDestroy(&da[f])] when the indices are
    in range and the routine does not fail. *)
Lemma destroy_range_Ok (k : nat) :
  forall (i : nat) (b : Mesh.MeshBase) (old : list DM),
    (i + k <= List.length (Mesh.da b))%nat ->
    (forall dm, In dm (Mesh.objects (firstn k (skipn i (Mesh.da b)))) ->
                DMDestroy_ext dm = 0) ->
    Mesh.for_each (seq i k) Mesh.DMDestroy_da
      {| Mesh.self := b; Mesh.destroyed := old |}
    = Mesh.Ok {| Mesh.self := null_range i k b;
                 Mesh.destroyed :=
                   old ++ Mesh.objects (firstn k (skipn i (Mesh.da b))) |}.
Proof.
  induction k as [|k IH]; intros i b old Hlen Hcodes.
  - simpl. now rewrite app_nil_r.
  - destruct (nth_error (Mesh.da b) i) as [h|] eqn:Hi.
    2:{ apply nth_error_None in Hi. lia. }
    rewrite (firstn_skipn_cons _ _ _ _ Hi) in Hcodes |- *.
    rewrite objects_cons in Hcodes |- *.
    simpl seq. simpl Mesh.for_each.
    rewrite (DMDestroy_da_Ok i b old h Hi).
    2:{ intros dm ->. apply Hcodes. apply in_or_app. left. now left. }
    unfold Mesh.bind. rewrite IH.
    + unfold null_range. simpl fold_left. simpl Mesh.da.
      rewrite skipn_list_set by lia. now rewrite app_assoc.
    + simpl. rewrite list_set_length. lia.
    + intros dm Hdm. apply Hcodes. apply in_or_app. right.
      cbn [Mesh.da Mesh.set_da] in Hdm.
      now rewrite skipn_list_set in Hdm by lia.
Qed.

(** The destructor of a mesh of [dim] dimensions, when PETSc is not yet
    finalized and no [DMDestroy] fails: it returns with [da[0..dim-1]],
    [da[3]], [da[4]], [UPack] and the communicator null, having destroyed
    their objects in this order, and with every other member as it was. *)
Theorem destructor_releases_DMs (s : Mesh.State) :
  0 <= Mesh.dim (Mesh.self s) <= 3 ->
  (5 <= List.length (Mesh.da (Mesh.self s)))%nat ->
  (forall dm,
     In dm (Mesh.objects
              (firstn (Z.to_nat (Mesh.dim (Mesh.self s)))
                 (Mesh.da (Mesh.self s))
               ++ [nth 3 (Mesh.da (Mesh.self s)) None;
                   nth 4 (Mesh.da (Mesh.self s)) None;
                   Mesh.UPack (Mesh.self s)])) ->
     DMDestroy_ext dm = 0) ->
  exists s' : Mesh.State,
    Mesh.destructor (0, false) s = Mesh.Ok s'
    /\ (forall f, Z.of_nat f < Mesh.dim (Mesh.self s) ->
          nth_error (Mesh.da (Mesh.self s')) f = Some None)
    /\ nth_error (Mesh.da (Mesh.self s')) 3 = Some None
    /\ nth_error (Mesh.da (Mesh.self s')) 4 = Some None
    /\ (forall f, Mesh.dim (Mesh.self s) <= Z.of_nat f -> (f < 3)%nat ->
          nth_error (Mesh.da (Mesh.self s')) f
          = nth_error (Mesh.da (Mesh.self s)) f)
    /\ Mesh.UPack (Mesh.self s') = None
    /\ Mesh.comm (Mesh.self s') = None
    /\ Mesh.dim (Mesh.self s') = Mesh.dim (Mesh.self s)
    /\ Mesh.destroyed s'
       = Mesh.destroyed s
         ++ Mesh.objects
              (firstn (Z.to_nat (Mesh.dim (Mesh.self s)))
                 (Mesh.da (Mesh.self s))
               ++ [nth 3 (Mesh.da (Mesh.self s)) None;
                   nth 4 (Mesh.da (Mesh.self s)) None;
                   Mesh.UPack (Mesh.self s)]).
Proof.
  destruct s as [b old]. cbn [Mesh.self Mesh.destroyed].
  intros Hdim Hlen Hcodes.
  set (k := Z.to_nat (Mesh.dim b)) in *.
  assert (Hk : (k <= 3)%nat) by lia.
  destruct (null_range_frame k 0 b) as (Flen & Fdim & FUPack & Fcomm).
  assert (D3 : nth_error (Mesh.da (null_range 0 k b)) 3
               = Some (nth 3 (Mesh.da b) None)).
  { rewrite null_range_da by lia.
    replace ((3 <? 0 + k)%nat) with false
      by (symmetry; apply Nat.ltb_ge; lia).
    rewrite andb_false_r. apply nth_error_nth'. lia. }
  assert (D4 : nth_error (Mesh.da (Mesh.set_da 3 None (null_range 0 k b))) 4
               = Some (nth 4 (Mesh.da b) None)).
  { cbn [Mesh.da Mesh.set_da]. rewrite list_set_other by lia.
    rewrite null_range_da by lia.
    replace ((4 <? 0 + k)%nat) with false
      by (symmetry; apply Nat.ltb_ge; lia).
    rewrite andb_false_r. apply nth_error_nth'. lia. }
  assert (Hin : forall dm l1 l2, In dm (Mesh.objects l2) ->
                  In dm (Mesh.objects (l1 ++ l2))).
  { intros dm l1 l2 H. unfold Mesh.objects in *. rewrite flat_map_app.
    apply in_or_app. now right. }
  eexists. split.
  - unfold Mesh.destructor, Mesh.destroy_velocity_DMs.
    cbn [Mesh.self Z.eqb negb]. fold k.
    rewrite destroy_range_Ok; [| lia |].
    2:{ intros dm Hdm. apply Hcodes. unfold Mesh.objects in *.
        rewrite flat_map_app. apply in_or_app. now left. }
    unfold Mesh.bind.
    rewrite (DMDestroy_da_Ok 3 _ _ _ D3).
    2:{ intros dm Hdm. apply Hcodes, Hin. rewrite Hdm. simpl. now left. }
    rewrite (DMDestroy_da_Ok 4 _ _ _ D4).
    2:{ intros dm Hdm. apply Hcodes, Hin. rewrite Hdm.
        rewrite objects_cons. apply in_or_app. right. simpl. now left. }
    rewrite DMDestroy_UPack_Ok.
    2:{ intros dm Hdm. apply Hcodes, Hin. simpl Mesh.UPack in Hdm.
        rewrite FUPack in Hdm. rewrite Hdm.
        rewrite 2 objects_cons. apply in_or_app. right.
        apply in_or_app. right. simpl. now left. }
    reflexivity.
  - cbn [Mesh.self Mesh.destroyed Mesh.on_self Mesh.clear_comm Mesh.set_UPack
         Mesh.set_da Mesh.da Mesh.UPack Mesh.comm Mesh.dim].
    rewrite Fdim. rewrite FUPack.
    repeat split.
    + intros f Hf. rewrite !list_set_other by lia.
      rewrite null_range_da by lia.
      replace ((0 <=? f)%nat && (f <? 0 + k)%nat) with true; [reflexivity|].
      symmetry. apply andb_true_iff. split;
        [apply Nat.leb_le | apply Nat.ltb_lt]; lia.
    + rewrite list_set_other by lia. apply list_set_same.
      rewrite Flen. lia.
    + apply list_set_same. rewrite list_set_length, Flen. lia.
    + intros f Hlo Hhi. rewrite !list_set_other by lia.
      rewrite null_range_da by lia.
      replace ((f <? 0 + k)%nat) with false
        by (symmetry; apply Nat.ltb_ge; lia).
      now rewrite andb_false_r.
    + unfold Mesh.objects. rewrite flat_map_app.
      rewrite <- !app_assoc. simpl. now rewrite !app_nil_r.
Qed.
End MeshFacts.


(* ================================================================== *)
(** * Examples for teardown, the product and the mesh *)


Section TeardownExamples.
Import Demo DemoPetsc.

(** On the concrete solver no reporting call fails: a step that returns
    leaves no stage pushed, and a step that fails in [generateRHS1], for
    want of [MHat], leaves the stage of the first right-hand side pushed. *)
Lemma stepTime_stage_balance_witness :
  (exists p' : Process,
     stepTime (process 2 2) = Ok tt p' /\ stage_depth (trace p') = 0)
  /\ (exists p' : Process,
        stepTime without_MHat = Raise PETSC_ERR_ARG_NULL p'
        /\ stage_depth (trace p') = 1).
Proof.
  assert (Hall : @reporting_succeeds scalarZ reportingZ)
    by (repeat split).
  split.
  - pose proof (stepTime_stage_balance (process 2 2) Hall) as Hb.
    destruct (stepTime (process 2 2)) as [[] p'|ierr p'|status p'|u p']
      eqn:Hrun; vm_compute in Hrun; try discriminate Hrun.
    exists p'. split; [reflexivity | exact Hb].
  - pose proof (stepTime_stage_balance without_MHat Hall) as Hb.
    destruct (stepTime without_MHat) as [[] p'|ierr p'|status p'|u p']
      eqn:Hrun; vm_compute in Hrun; try discriminate Hrun.
    inversion Hrun; subst ierr p'. clear Hrun.
    eexists. split; [reflexivity | exact (proj2 Hb)].
Defined.

Lemma finalize_releases_every_handle_witness :
  exists p' : Process,
    finalize (process 2 2) = Ok tt p'
    /\ (forall v, vecs (this p') v = None)
    /\ (forall k, ksps (this p') k = None)
    /\ timeStep (this p') = 7.
Proof.
  assert (Hrun : finalize (process 2 2)
                 = Ok tt (final (finalize (process 2 2))))
    by (vm_compute; reflexivity).
  destruct (finalize_releases_every_handle _ _ Hrun)
    as (_ & Hv & _ & Hk & Hts & _).
  exists (final (finalize (process 2 2))).
  split; [exact Hrun|]. split; [exact Hv|]. split; [exact Hk|].
  rewrite Hts. reflexivity.
Defined.

Lemma finalize_twice_destroys_nothing_witness :
  exists p' : Process,
    finalize (process 2 2) = Ok tt p'
    /\ vecs (this (process 2 2)) V_q = Some [0; 0]
    /\ is_set (HVec V_q) (this p') = false
    /\ finalize p' = write_summary p'
    /\ final (finalize p') = p'.
Proof.
  assert (Hrun : finalize (process 2 2)
                 = Ok tt (final (finalize (process 2 2))))
    by (vm_compute; reflexivity).
  destruct (finalize_twice_destroys_nothing _ _ Hrun)
    as (Hnull & _ & Hsummary & Hsame).
  exists (final (finalize (process 2 2))).
  split; [exact Hrun|]. split; [reflexivity|].
  split; [apply Hnull; simpl; auto 10|].
  split; [exact Hsummary | exact Hsame].
Defined.

Lemma generateQTBNQ_stores_product_witness :
  exists p' : Process,
    generateQTBNQ (process 2 2) = Ok tt p'
    /\ mats (this p') M_QTBNQ = Some [[3]]
    /\ mats (this p') M_QT = Some [[1; 1]].
Proof.
  assert (Hrun : generateQTBNQ (process 2 2)
                 = Ok tt (final (generateQTBNQ (process 2 2))))
    by (vm_compute; reflexivity).
  destruct (generateQTBNQ_stores_product (process 2 2) _ [[1; 1]] [[1]; [2]]
              eq_refl eq_refl eq_refl Hrun)
    as (Hproduct & _ & _ & Hframe & _).
  exists (final (generateQTBNQ (process 2 2))).
  split; [exact Hrun|]. split; [exact Hproduct|].
  rewrite Hframe by discriminate. reflexivity.
Defined.

Lemma projectionStep_meets_constraint_witness :
  exists (p' : Process) (q' : Vec),
    projectionStep solved = Ok tt p'
    /\ vecs (this p') V_q = Some q'
    /\ mat_vec [[1; 1]] q' = [5].
Proof.
  exact (projectionStep_meets_constraint solved [[1; 1]] [[1]; [2]]
           [6] [0; 0] [8; 15] [0; 0] [5] 2 1
           eq_refl eq_refl eq_refl eq_refl eq_refl eq_refl
           eq_refl eq_refl eq_refl eq_refl eq_refl eq_refl eq_refl eq_refl).
Defined.

Lemma destroy_clears_mesh_witness :
  exists s' : Mesh.State,
    Mesh.destroy mesh2d = Mesh.Ok s'
    /\ Mesh.da (Mesh.self s') = [Some tt; Some tt; None; None; None]
    /\ Mesh.destroyed s' = [tt; tt; tt].
Proof.
  assert (Hrun : Mesh.destroy mesh2d
                 = Mesh.Ok (Mesh.final (Mesh.destroy mesh2d)))
    by (vm_compute; reflexivity).
  destruct (destroy_clears_mesh _ _ Hrun) as (_ & Hself & Hdestroyed).
  exists (Mesh.final (Mesh.destroy mesh2d)).
  split; [exact Hrun|]. split.
  - rewrite Hself. reflexivity.
  - rewrite Hdestroyed. reflexivity.
Defined.

Lemma destroy_leaves_nothing_to_release_witness :
  exists s' : Mesh.State,
    Mesh.destroy mesh2d = Mesh.Ok s'
    /\ Mesh.destroy s' = Mesh.Ok s'
    /\ Mesh.final (Mesh.destructor (0, false) s') = s'
    /\ nth_error (Mesh.da (Mesh.self s')) 0 = Some (Some tt).
Proof.
  assert (Hrun : Mesh.destroy mesh2d
                 = Mesh.Ok (Mesh.final (Mesh.destroy mesh2d)))
    by (vm_compute; reflexivity).
  destruct (destroy_leaves_nothing_to_release _ _ (0, false) Hrun)
    as (Hagain & Hdestructor & Hkept).
  exists (Mesh.final (Mesh.destroy mesh2d)).
  split; [exact Hrun|]. split; [exact Hagain|].
  split; [exact Hdestructor|].
  rewrite Hkept by lia. reflexivity.
Defined.

Lemma destructor_releases_DMs_witness :
  exists s' : Mesh.State,
    Mesh.destructor (0, false) mesh2d = Mesh.Ok s'
    /\ nth_error (Mesh.da (Mesh.self s')) 0 = Some None
    /\ nth_error (Mesh.da (Mesh.self s')) 1 = Some None
    /\ Mesh.UPack (Mesh.self s') = None
    /\ Mesh.destroyed s' = [tt; tt; tt; tt; tt].
Proof.
  destruct (destructor_releases_DMs mesh2d)
    as (s' & Hrun & Hlow & _ & _ & _ & HUPack & _ & _ & Hdestroyed).
  - simpl. lia.
  - simpl. lia.
  - intros dm _. reflexivity.
  - exists s'. split; [exact Hrun|].
    split; [apply Hlow; simpl; lia|].
    split; [apply Hlow; simpl; lia|].
    split; [exact HUPack|].
    rewrite Hdestroyed. reflexivity.
Defined.
End TeardownExamples.

